(** * Wave Function Collapse pattern generator (main.py)

    A shallow embedding of the collapse / propagation engine of [main.py]
    (classes [Tile], [Cell], [WFCGenerator]) and the properties of its
    specification.

    Modelling conventions.
    - A Python [set] of tiles is a duplicate-free [list Tile]; the order of
      the list stands for the iteration order of the set, which Python
      leaves unspecified.  [set(l)] is [remove_dups l], [len] is [length].
      The [frozenset] of socket names of a tile is a [gset string].
    - The dictionary [self.grid] is a [gmap (Z * Z) Cell].  A Python dict
      enumerates its keys in insertion order; the keys are inserted once, by
      [_initialize_grid], row by row, and never afterwards, so [values()]
      enumerates the keys of [positions width height] in that order.
    - A [Cell] object is mutable and lives in the dictionary; a reference to
      it is the key it is stored under.
    - Python floats are rationals here ([Qc] for the immutable tile weight,
      [Q] for computed values).  The Shannon entropy of a weight list, a
      floating-point computation with logarithms, is the parameter
      [shannon]; the division by the sum of the weights that precedes it
      raises [ZeroDivisionError] when the sum is zero.
    - [random.choices] is modelled after the library: running sums,
      [ValueError] on a non-positive total, one call of [random()], and a
      binary search for the drawn index.
    - The module-level generator of Python's [random] is shared mutable
      state: it is threaded through every function that draws from it.  A
      generator state is the stream of its future outputs with a cursor;
      [mersenne s] is the stream [random.seed(s)] installs.
    - Exceptions are the [Raise] results of the type [result]. *)

From Stdlib Require Import ZArith QArith Qcanon Lia Lqa.
From stdpp Require Import base numbers countable gmap sets list list_numbers strings.

Local Open Scope Z_scope.

(** ** Tiles *)

(** The four socket names the engine uses: 'N', 'S', 'E', 'W'. *)
Inductive Direction := North | South | East | West.

#[global] Instance Direction_eq_dec : EqDecision Direction.
Proof. solve_decision. Defined.

Definition dir_name (d : Direction) : string :=
  match d with
  | North => "N" | South => "S" | East => "E" | West => "W"
  end.

(** The dictionary [opposite] of [Tile.can_connect]. *)
Definition opposite (d : Direction) : Direction :=
  match d with
  | North => South | South => North | East => West | West => East
  end.

Record Tile := mkTile {
  symbol : string;
  sockets : gset string;
  weight : Qc
}.

#[global] Instance Tile_eq_dec : EqDecision Tile.
Proof. solve_decision. Defined.

(** [Tile.can_connect] *)
Definition can_connect (self other : Tile) (direction : Direction) : bool :=
  bool_decide (dir_name direction ∈ sockets self)
  && bool_decide (dir_name (opposite direction) ∈ sockets other).

(** ** Cells *)

Record Cell := mkCell {
  position : Z * Z;
  possibilities : list Tile;
  collapsed : bool;
  chosen : option Tile
}.

(** ** The shared random generator *)

Record Rng := mkRng { stream : nat → Q; cursor : nat }.

(** [random.random()] *)
Definition random (g : Rng) : Q * Rng :=
  (stream g (cursor g), mkRng (stream g) (S (cursor g))).

(** ** Exceptions *)

Inductive exn := KeyError | ValueError | IndexError | ZeroDivisionError.

Inductive result (A : Type) :=
| Ok (a : A)
| Raise (e : exn).
Arguments Ok {A} a.
Arguments Raise {A} e.

Definition bind {A B} (r : result A) (k : A → result B) : result B :=
  match r with
  | Ok a => k a
  | Raise e => Raise e
  end.

Notation "'try' p ':=' r 'in' k" := (bind r (λ p, k))
  (at level 10, p pattern, r at level 100, k at level 200, only parsing).

(** ** [random.choices(population, weights)[0]] *)

(** [itertools.accumulate] *)
Fixpoint accumulate_from (acc : Q) (ws : list Q) : list Q :=
  match ws with
  | [] => []
  | w :: ws' => (acc + w)%Q :: accumulate_from (acc + w)%Q ws'
  end.

Definition accumulate (ws : list Q) : list Q := accumulate_from 0%Q ws.

(** [bisect.bisect_right(a, x, lo, hi)]:
    [while lo < hi: mid = (lo + hi) // 2;
       if x < a[mid]: hi = mid else: lo = mid + 1].
    The interval shrinks at every turn, so [fuel] turns with [hi - lo < fuel]
    are enough. *)
Fixpoint bisect_loop (fuel : nat) (a : list Q) (x : Q) (lo hi : nat) : nat :=
  match fuel with
  | O => lo
  | S fuel' =>
    if (lo <? hi)%nat then
      let mid := ((lo + hi) / 2)%nat in
      match a !! mid with
      | Some y =>
        if Qlt_le_dec x y then bisect_loop fuel' a x lo mid
        else bisect_loop fuel' a x (S mid) hi
      | None => lo
      end
    else lo
  end.

Definition bisect (a : list Q) (x : Q) (lo hi : nat) : nat :=
  bisect_loop (S hi) a x lo hi.

Definition choices (population : list Tile) (weights : list Q) (g : Rng)
  : result (Tile * Rng) :=
  let cum_weights := accumulate weights in
  match last cum_weights with
  | None => Raise IndexError
  | Some total =>
    if Qlt_le_dec 0%Q total then
      let '(r, g') := random g in
      match population !! bisect cum_weights (r * total)%Q 0 (length population - 1)%nat with
      | Some t => Ok (t, g')
      | None => Raise IndexError
      end
    else Raise ValueError
  end.

(** ** The generator *)

Record WFCGenerator := mkGen {
  width : Z;
  height : Z;
  tileset : list Tile;
  grid : gmap (Z * Z) Cell
}.

Definition set_grid (self : WFCGenerator) (g : gmap (Z * Z) Cell) : WFCGenerator :=
  mkGen (width self) (height self) (tileset self) g.

Definition PROPAGATION_LIMIT : Z := 10000.

(** The keys in the order [_initialize_grid] inserts them:
    [for y in range(height): for x in range(width)]. *)
Definition positions (w h : Z) : list (Z * Z) :=
  y ← seqZ 0 h; x ← seqZ 0 w; [(x, y)].

Definition _initialize_grid (w h : Z) (ts : list Tile) : gmap (Z * Z) Cell :=
  foldl (λ g p, <[p := mkCell p (remove_dups ts) false None]> g) ∅ (positions w h).

(** [_get_neighbors] *)
Definition _get_neighbors (self : WFCGenerator) (pos : Z * Z)
  : list (Direction * (Z * Z)) :=
  let '(x, y) := pos in
  let directions :=
    [(North, (x, y - 1)); (South, (x, y + 1)); (East, (x + 1, y)); (West, (x - 1, y))] in
  filter (λ dn, 0 ≤ dn.2.1 < width self ∧ 0 ≤ dn.2.2 < height self) directions.

Section Engine.

(** The Shannon entropy [-sum(p * log2(p) for p in probs if p > 0)] of a
    list of weights with a non-zero sum, [probs] being the weights divided
    by their sum. *)
Variable shannon : list Q → Q.

(** [mersenne s] is the output stream after [random.seed(s)]. *)
Variable mersenne : Z → nat → Q.

Definition seed (s : Z) : Rng := mkRng (mersenne s) 0.

(** [WFCGenerator.__init__]; [world] is the state of the shared generator
    before the call, which [random.seed] discards. *)
Definition __init__ (w h : Z) (ts : list Tile) (s : Z) (world : Rng)
  : WFCGenerator * Rng :=
  (mkGen w h ts (_initialize_grid w h ts), seed s).

(** [Cell.entropy]; the division [w/total] raises when the weights sum to
    zero. *)
Definition entropy (self : Cell) (g : Rng) : result (Q * Rng) :=
  if collapsed self || (length (possibilities self) <=? 1)%nat then Ok (0%Q, g)
  else
    let weights := (λ t, this (weight t)) <$> possibilities self in
    let total := foldl Qplus 0%Q weights in
    if Qeq_bool total 0 then Raise ZeroDivisionError
    else
      let '(r, g') := random g in
      Ok ((shannon weights + r * (1 # 10000))%Q, g').

(** *** [_propagate] *)

(** The tiles the inner loop ranges over:
    [cell.possibilities if not cell.collapsed else [cell.chosen]]. *)
Definition representatives (cell : Cell) : list (option Tile) :=
  if collapsed cell then [chosen cell]
  else Some <$> possibilities cell.

(** The inner loop: some [current_tile] is not [None] and connects. *)
Definition supported (cell : Cell) (direction : Direction) (neighbor_tile : Tile) : bool :=
  existsb (λ current_tile,
             match current_tile with
             | Some c => can_connect c neighbor_tile direction
             | None => false
             end) (representatives cell).

Definition valid_tiles (cell neighbor : Cell) (direction : Direction) : list Tile :=
  filter (λ t, supported cell direction t = true) (possibilities neighbor).

Definition narrow (neighbor : Cell) (valid : list Tile) : Cell :=
  mkCell (position neighbor) valid (collapsed neighbor) (chosen neighbor).

(** Control after one pass of the body of the [for] loop. *)
Inductive flow :=
| Next (queue : list (Z * Z)) (g : gmap (Z * Z) Cell)
| ReturnFalse (queue : list (Z * Z)) (g : gmap (Z * Z) Cell).

(** The body of [for direction, neighbor_pos in ...].  [cell] is the
    object read before the loop; the loop writes cells at neighbouring
    keys only, which differ from the key of [cell]. *)
Definition visit_neighbor (cell : Cell) (queue : list (Z * Z))
    (g : gmap (Z * Z) Cell) (dn : Direction * (Z * Z)) : result flow :=
  let '(direction, neighbor_pos) := dn in
  match g !! neighbor_pos with
  | None => Raise KeyError
  | Some neighbor =>
    if collapsed neighbor then Ok (Next queue g)
    else
      let valid := valid_tiles cell neighbor direction in
      if (length valid <? length (possibilities neighbor))%nat then
        let g' := <[neighbor_pos := narrow neighbor valid]> g in
        if bool_decide (valid = []) then Ok (ReturnFalse queue g')
        else Ok (Next (queue ++ [neighbor_pos]) g')
      else Ok (Next queue g)
  end.

Fixpoint visit_neighbors (cell : Cell) (neighbors : list (Direction * (Z * Z)))
    (queue : list (Z * Z)) (g : gmap (Z * Z) Cell) : result flow :=
  match neighbors with
  | [] => Ok (Next queue g)
  | dn :: rest =>
    match visit_neighbor cell queue g dn with
    | Ok (Next queue' g') => visit_neighbors cell rest queue' g'
    | other => other
    end
  end.

(** The local state of [_propagate] when it returns. *)
Record PropagateExit := mkExit {
  returned : bool;
  iterations : nat;
  pending : list (Z * Z);
  exit_grid : gmap (Z * Z) Cell
}.

(** The [while queue and iterations < PROPAGATION_LIMIT] loop.  [budget]
    is [PROPAGATION_LIMIT - iterations]: the loop is left when the queue
    is empty or the budget is used up. *)
Fixpoint propagate_loop (self : WFCGenerator) (budget : nat) (iters : nat)
    (queue : list (Z * Z)) (g : gmap (Z * Z) Cell) : result PropagateExit :=
  match queue, budget with
  | [], _ => Ok (mkExit true iters [] g)
  | _ :: _, O => Ok (mkExit true iters queue g)
  | pos :: queue', S budget' =>
    match g !! pos with
    | None => Raise KeyError
    | Some cell =>
      match visit_neighbors cell (_get_neighbors self pos) queue' g with
      | Ok (Next queue'' g') => propagate_loop self budget' (S iters) queue'' g'
      | Ok (ReturnFalse queue'' g') => Ok (mkExit false (S iters) queue'' g')
      | Raise e => Raise e
      end
    end
  end.

Definition propagate_run (self : WFCGenerator) (start_pos : Z * Z)
  : result PropagateExit :=
  propagate_loop self (Z.to_nat PROPAGATION_LIMIT) 0 [start_pos] (grid self).

Definition _propagate (self : WFCGenerator) (start_pos : Z * Z)
  : result (bool * WFCGenerator) :=
  try st := propagate_run self start_pos in
  Ok (returned st, set_grid self (exit_grid st)).

(** *** [_find_minimum_entropy_cell] *)

(** [self.grid.values()], each cell with the key it is stored under. *)
Definition grid_items (self : WFCGenerator) : list ((Z * Z) * Cell) :=
  omap (λ p, (λ c, (p, c)) <$> grid self !! p) (positions (width self) (height self)).

Definition is_candidate (c : Cell) : bool :=
  negb (collapsed c) && (0 <? length (possibilities c))%nat.

Definition candidates (self : WFCGenerator) : list ((Z * Z) * Cell) :=
  filter (λ kc, is_candidate kc.2 = true) (grid_items self).

(** [min(candidates, key=...)]: keys are computed once each, in order,
    and an item replaces the current minimum when its key is strictly
    smaller. *)
Fixpoint min_entropy (best : (Z * Z) * Cell) (best_key : Q)
    (rest : list ((Z * Z) * Cell)) (g : Rng) : result (((Z * Z) * Cell) * Rng) :=
  match rest with
  | [] => Ok (best, g)
  | kc :: rest' =>
    try (k, g') := entropy kc.2 g in
    if Qlt_le_dec k best_key then min_entropy kc k rest' g'
    else min_entropy best best_key rest' g'
  end.

Definition _find_minimum_entropy_cell (self : WFCGenerator) (g : Rng)
  : result (option ((Z * Z) * Cell) * Rng) :=
  match candidates self with
  | [] => Ok (None, g)
  | kc :: rest =>
    try (k, g') := entropy kc.2 g in
    try (best, g'') := min_entropy kc k rest g' in
    Ok (Some best, g'')
  end.

(** *** [_collapse_cell] *)

(** [ref] is the key of the cell object passed as argument. *)
Definition _collapse_cell (self : WFCGenerator) (ref : Z * Z) (g : Rng)
  : result (bool * WFCGenerator * Rng) :=
  match grid self !! ref with
  | None => Raise KeyError
  | Some cell =>
    if bool_decide (possibilities cell = []) then Ok (false, self, g)
    else
      let tiles := possibilities cell in
      let weights := (λ t, this (weight t)) <$> tiles in
      try (t, g') := choices tiles weights g in
      Ok (true,
          set_grid self (<[ref := mkCell (position cell) [t] true (Some t)]> (grid self)),
          g')
  end.

(** *** [generate] *)

(** One pass of the body of [while True]. *)
Inductive outcome :=
| Continue (self : WFCGenerator) (g : Rng)
| Return (b : bool) (self : WFCGenerator) (g : Rng).

Definition all_collapsed (self : WFCGenerator) : bool :=
  forallb (λ kc, collapsed kc.2) (grid_items self).

Definition generate_step (self : WFCGenerator) (g : Rng) : result outcome :=
  try (cell, g1) := _find_minimum_entropy_cell self g in
  match cell with
  | None => Ok (Return (all_collapsed self) self g1)
  | Some (ref, _) =>
    try (ok, self2, g2) := _collapse_cell self ref g1 in
    if negb ok then Ok (Return false self2 g2)
    else
      match grid self2 !! ref with
      | None => Raise KeyError
      | Some cell =>
        try (ok', self3) := _propagate self2 (position cell) in
        if negb ok' then Ok (Return false self3 g2)
        else Ok (Continue self3 g2)
      end
  end.

(** [None] is an exhausted [fuel]: the loop has not returned yet. *)
Fixpoint generate_loop (fuel : nat) (self : WFCGenerator) (g : Rng)
  : option (result (bool * WFCGenerator * Rng)) :=
  match fuel with
  | O => None
  | S fuel' =>
    match generate_step self g with
    | Raise e => Some (Raise e)
    | Ok (Return b self' g') => Some (Ok (b, self', g'))
    | Ok (Continue self' g') => generate_loop fuel' self' g'
    end
  end.

(** Every pass that continues collapses one more cell, so one pass per
    cell and a last one that finds no candidate are enough. *)
Definition generate (self : WFCGenerator) (g : Rng)
  : option (result (bool * WFCGenerator * Rng)) :=
  generate_loop (S (size (grid self))) self g.

End Engine.

Arguments visit_neighbor : simpl never.
Arguments _get_neighbors : simpl never.

(** ** Predicates on generator states *)

(** The cell [_collapse_cell] leaves behind. *)
Definition collapse_to (cell : Cell) (t : Tile) : Cell :=
  mkCell (position cell) [t] true (Some t).

Definition flow_grid (fl : flow) : gmap (Z * Z) Cell :=
  match fl with
  | Next _ g | ReturnFalse _ g => g
  end.

Definition flow_queue (fl : flow) : list (Z * Z) :=
  match fl with
  | Next q _ | ReturnFalse q _ => q
  end.

(** The key of [dn]'s cell, one step from [pos] in direction [d]. *)
Definition shift (d : Direction) (pos : Z * Z) : Z * Z :=
  match d with
  | North => (pos.1, pos.2 - 1)
  | South => (pos.1, pos.2 + 1)
  | East => (pos.1 + 1, pos.2)
  | West => (pos.1 - 1, pos.2)
  end.

Definition in_bounds (self : WFCGenerator) (p : Z * Z) : Prop :=
  0 ≤ p.1 < width self ∧ 0 ≤ p.2 < height self.

(** The [Cell] invariant of a generator built by [__init__]: the keys are
    the coordinates of the rectangle, each cell records its own key, a
    collapsed cell holds exactly its chosen tile, and every set is
    duplicate-free. *)
Record well_formed (self : WFCGenerator) : Prop := mkWf {
  wf_keys : ∀ p, is_Some (grid self !! p) ↔ in_bounds self p;
  wf_position : ∀ p c, grid self !! p = Some c → position c = p;
  wf_collapsed : ∀ p c, grid self !! p = Some c → collapsed c = true →
                 ∃ t, chosen c = Some t ∧ possibilities c = [t];
  wf_nodup : ∀ p c, grid self !! p = Some c → NoDup (possibilities c)
}.

(** [c'] is [c] after some narrowing: same key, same collapse state, no new
    tile; a collapsed cell is left alone. *)
Definition cell_narrows (c c' : Cell) : Prop :=
  position c' = position c ∧ collapsed c' = collapsed c ∧ chosen c' = chosen c
  ∧ possibilities c' ⊆ possibilities c
  ∧ (length (possibilities c') ≤ length (possibilities c))%nat
  ∧ (possibilities c ≠ [] → possibilities c' = [] → collapsed c = false)
  ∧ (NoDup (possibilities c) → NoDup (possibilities c'))
  ∧ (collapsed c = true → c' = c).

Definition narrows (g g' : gmap (Z * Z) Cell) : Prop :=
  ∀ p, match g !! p, g' !! p with
       | Some c, Some c' => cell_narrows c c'
       | None, None => True
       | _, _ => False
       end.

(** Some cell has run out of tiles. *)
Definition has_empty (g : gmap (Z * Z) Cell) : Prop :=
  ∃ p c, g !! p = Some c ∧ possibilities c = [].

(** The sum of the sizes of all possibility sets. *)
Definition total_possibilities (g : gmap (Z * Z) Cell) : nat :=
  map_fold (λ _ c acc, (length (possibilities c) + acc)%nat) 0%nat g.

(** The keys of the cells that are not collapsed yet. *)
Definition uncollapsed (g : gmap (Z * Z) Cell) : gset (Z * Z) :=
  dom (filter (λ kc, collapsed kc.2 = false) g).

(** Every collapsed cell agrees with whatever its neighbours may still
    become. *)
Definition adjacency_invariant (self : WFCGenerator) : Prop :=
  ∀ p cp t d q cq t',
    grid self !! p = Some cp → collapsed cp = true → chosen cp = Some t →
    (d, q) ∈ _get_neighbors self p →
    grid self !! q = Some cq → t' ∈ possibilities cq →
    can_connect t t' d = true.

(** A tile with a socket on each of its four sides. *)
Definition four_way (t : Tile) : Prop :=
  ∀ d, dir_name d ∈ sockets t.

(** A generator whose tiles all have four sockets and a positive weight and
    whose cells all have tiles left. *)
Definition ready (self : WFCGenerator) : Prop :=
  well_formed self
  ∧ (∀ t, t ∈ tileset self → four_way t ∧ (0 < weight t)%Qc)
  ∧ ∀ p c, grid self !! p = Some c →
      possibilities c ≠ [] ∧ possibilities c ⊆ tileset self.

(** What holds each time [generate] is at the head of its loop: an empty
    set can only be there from the start, when every set is empty and no
    cell is a candidate. *)
Definition head_invariant (self : WFCGenerator) : Prop :=
  well_formed self ∧ (has_empty (grid self) → candidates self = []).

(** ** Sample tile sets *)

Definition all_sockets : gset string := {[ "N"; "S"; "E"; "W" ]}.

(** [get_tileset(Pattern.MAZE)] *)
Definition wall : Tile := mkTile "█" all_sockets 2.
Definition path : Tile := mkTile " " all_sockets 1.
Definition maze_tileset : list Tile := [ wall; path ].

(** A tile set with one tile closed on each side. *)
Definition open_tile : Tile := mkTile "+" all_sockets 1.
Definition closed_tile (d : Direction) : Tile :=
  mkTile (dir_name d) (all_sockets ∖ {[ dir_name d ]}) 1.
Definition shutter_tileset : list Tile :=
  [ open_tile; closed_tile North; closed_tile South; closed_tile East; closed_tile West ].

(** ** Sample runs *)

(** A stand-in for the entropy function: every weight list gets the same
    value, so the jitter alone decides. *)
Definition sample_shannon (ws : list Q) : Q := 1%Q.

(** A generator stream: output [n] after seeding with [s] is
    [((7 * n + s) mod 10) / 10]. *)
Definition sample_stream (s : Z) (n : nat) : Q :=
  ((7 * Z.of_nat n + s) `mod` 10) # 10.

(** The first outputs of [random.random()] after [random.seed(0)]. *)
Definition seed0_stream (n : nat) : Q :=
  match n with
  | 0%nat => 8444218515250481 # 10000000000000000
  | 1%nat => 7579544029403025 # 10000000000000000
  | 2%nat => 420571580830845 # 1000000000000000
  | 3%nat => 25891675029296335 # 100000000000000000
  | _ => 0
  end.

(** A run on a 2 x 2 grid of maze tiles. *)
Definition sample_run : option (result (bool * WFCGenerator * Rng)) :=
  generate sample_shannon
    (__init__ sample_stream 2 2 maze_tileset 42 (mkRng (λ _, 0%Q) 0)).1
    (__init__ sample_stream 2 2 maze_tileset 42 (mkRng (λ _, 0%Q) 0)).2.

Definition final_generator (r : option (result (bool * WFCGenerator * Rng)))
  : WFCGenerator :=
  match r with
  | Some (Ok (_, gen', _)) => gen'
  | _ => mkGen 0 0 [] ∅
  end.

Definition final_rng (r : option (result (bool * WFCGenerator * Rng))) : Rng :=
  match r with
  | Some (Ok (_, _, g')) => g'
  | _ => mkRng (λ _, 0%Q) 0
  end.

(** A generator that always outputs zero: the selector keeps the first
    candidate and [random.choices] takes the first tile. *)
Definition zero_stream (s : Z) (n : nat) : Q := 0%Q.

Definition no_empty_cell (g : gmap (Z * Z) Cell) : bool :=
  bool_decide (map_Forall (λ _ c, possibilities c ≠ []) g).

(** A 3 x 3 grid of shutter tiles whose corner cell has just been collapsed
    to the open tile, and [_propagate] from that corner with a limit of one
    iteration. *)
Definition corner_collapsed : WFCGenerator :=
  mkGen 3 3 shutter_tileset
    (<[(0, 0) := collapse_to (mkCell (0, 0) shutter_tileset false None) open_tile]>
       (_initialize_grid 3 3 shutter_tileset)).

Definition one_pass : PropagateExit :=
  match propagate_loop corner_collapsed 1 0 [(0, 0)] (grid corner_collapsed) with
  | Ok st => st
  | Raise _ => mkExit false 0 [] ∅
  end.

(** Two cells side by side; the left one is collapsed to a tile with no
    socket towards the right one.  [blocked_end] is the grid [_propagate]
    leaves. *)
Definition blocked_start : WFCGenerator :=
  mkGen 2 1 [closed_tile East]
    (<[(0, 0) := collapse_to (mkCell (0, 0) [closed_tile East] false None)
                   (closed_tile East)]>
       (_initialize_grid 2 1 [closed_tile East])).

Definition blocked_end : WFCGenerator :=
  set_grid blocked_start
    (<[(1, 0) := mkCell (1, 0) [] false None]> (grid blocked_start)).

(** The first pass of [generate] on a 51 x 51 grid of shutter tiles: what
    its [_propagate] call returns, the iteration count of that call, whether
    keys were still queued, whether no set was empty, and whether
    [generate] goes on to the next pass. *)
Definition limit_case : option (bool * Z * bool * bool * bool) :=
  let '(gen, g0) := __init__ zero_stream 51 51 shutter_tileset 42 (mkRng (λ _, 0%Q) 0) in
  match _find_minimum_entropy_cell sample_shannon gen g0 with
  | Ok (Some (ref, _), g1) =>
    match _collapse_cell gen ref g1 with
    | Ok (true, gen2, _) =>
      match propagate_run gen2 ref, generate_step sample_shannon gen g0 with
      | Ok st, Ok o =>
        Some (returned st, Z.of_nat (iterations st),
              bool_decide (pending st ≠ []), no_empty_cell (exit_grid st),
              match o with Continue _ _ => true | Return _ _ _ => false end)
      | _, _ => None
      end
    | _ => None
    end
  | _ => None
  end.

(** The schedule of [test_deterministic_seed]: two generators are built
    with the same arguments, then each generates in turn.  Both draw from
    the one module-level generator. *)
Definition two_generators (shannon : list Q → Q) (mersenne : Z → nat → Q)
    (w h : Z) (ts : list Tile) (s : Z) (world : Rng)
  : option (result ((bool * WFCGenerator) * (bool * WFCGenerator))) :=
  let '(gen1, world1) := __init__ mersenne w h ts s world in
  let '(gen2, world2) := __init__ mersenne w h ts s world1 in
  match generate shannon gen1 world2 with
  | None => None
  | Some (Raise e) => Some (Raise e)
  | Some (Ok (r1, gen1', world3)) =>
    match generate shannon gen2 world3 with
    | None => None
    | Some (Raise e) => Some (Raise e)
    | Some (Ok (r2, gen2', _)) => Some (Ok ((r1, gen1'), (r2, gen2')))
    end
  end.

(** A generator with a single cell, as [WFCGenerator(1, 1, maze, seed)] has. *)
Definition single (c : Cell) : WFCGenerator :=
  mkGen 1 1 maze_tileset {[ (0, 0) := c ]}.

Definition fresh_cell : Cell := mkCell (0, 0) maze_tileset false None.

(** The tile [random.choices] draws from [wall; path], weights [2; 1], when
    [random()] returns [r]. *)
Definition pick (r : Q) : Tile := if Qlt_le_dec (r * 3) 2 then wall else path.

(** The representative set of a cell in the words of the specification:
    the singleton of the chosen tile if the cell is collapsed, its
    possibilities otherwise. *)
Definition representative_set (cell : Cell) : list Tile :=
  if collapsed cell then option_list (chosen cell) else possibilities cell.

(** The operations of a run that write cells. *)
Inductive run_step : WFCGenerator → WFCGenerator → Prop :=
| step_collapse self ref g b self' g' :
    _collapse_cell self ref g = Ok (b, self', g') → run_step self self'
| step_propagate self start_pos b self' :
    _propagate self start_pos = Ok (b, self') → run_step self self'.

(** One pass of [generate]'s loop that goes on to the next. *)
Definition continues (shannon : list Q → Q) (s s' : WFCGenerator * Rng) : Prop :=
  generate_step shannon s.1 s.2 = Ok (Continue s'.1 s'.2).

Definition outcome_generator (o : outcome) : WFCGenerator :=
  match o with
  | Continue self _ | Return _ self _ => self
  end.

(** What [render] prints for a cell. *)
Definition rendered (self : WFCGenerator) (p : Z * Z) : option string :=
  c ← grid self !! p;
  Some (if collapsed c
        then match chosen c with Some t => symbol t | None => "?" end
        else "?").

(** ** Presets, rendering and the entry point *)

Inductive Pattern := CIRCUIT | MAZE | TILES.

(** [get_tileset] *)
Definition get_tileset (pattern : Pattern) : list Tile :=
  match pattern with
  | CIRCUIT =>
    [ mkTile "·" {[ "N"; "S"; "E"; "W" ]} (Q2Qc 3);
      mkTile "─" {[ "E"; "W" ]} 2;
      mkTile "│" {[ "N"; "S" ]} 2;
      mkTile "┌" {[ "S"; "E" ]} 1;
      mkTile "┐" {[ "S"; "W" ]} 1;
      mkTile "└" {[ "N"; "E" ]} 1;
      mkTile "┘" {[ "N"; "W" ]} 1;
      mkTile "┬" {[ "S"; "E"; "W" ]} 1;
      mkTile "├" {[ "N"; "S"; "E" ]} 1;
      mkTile "┤" {[ "N"; "S"; "W" ]} 1;
      mkTile "┴" {[ "N"; "E"; "W" ]} 1;
      mkTile "┼" {[ "N"; "S"; "E"; "W" ]} 1 ]
  | MAZE =>
    [ mkTile "█" {[ "N"; "S"; "E"; "W" ]} 2;
      mkTile " " {[ "N"; "S"; "E"; "W" ]} 1 ]
  | TILES =>
    [ mkTile "░" {[ "N"; "S"; "E"; "W" ]} 2;
      mkTile "▒" {[ "N"; "S"; "E"; "W" ]} (Q2Qc (3 # 2));
      mkTile "▓" {[ "N"; "S"; "E"; "W" ]} 1;
      mkTile "█" {[ "N"; "S"; "E"; "W" ]} (Q2Qc (1 # 2)) ]
  end.

(** The results of a list of computations, or the first exception. *)
Fixpoint collect {A} (l : list (result A)) : result (list A) :=
  match l with
  | [] => Ok []
  | r :: l' =>
    try a := r in
    try rest := collect l' in
    Ok (a :: rest)
  end.

(** What [render] appends for a cell:
    [cell.chosen.symbol if cell.collapsed and cell.chosen else '?']. *)
Definition render_cell (cell : Cell) : string :=
  if collapsed cell
  then match chosen cell with Some t => symbol t | None => "?" end
  else "?".

Definition newline : string := String (Ascii.ascii_of_nat 10) EmptyString.

(** The inner loop of [render]: [''.join(line)] for row [y]. *)
Definition render_line (self : WFCGenerator) (y : Z) : result string :=
  try line :=
    collect ((λ x, match grid self !! (x, y) with
                   | Some cell => Ok (render_cell cell)
                   | None => Raise KeyError
                   end) <$> seqZ 0 (width self)) in
  Ok (String.concat "" line).

Definition render_lines (self : WFCGenerator) : result (list string) :=
  collect (render_line self <$> seqZ 0 (height self)).

(** [render] *)
Definition render (self : WFCGenerator) : result string :=
  try lines := render_lines self in
  Ok (String.concat newline lines).

Inductive Format := TextFormat | JsonFormat.

(** [main] from [pattern_type = Pattern[args.pattern.upper()]] on, for
    parsed arguments without [--test]: what is printed on standard output
    and the exit code.  The messages on standard error are left out;
    [json_dumps pattern size seed grid] is the text [json.dumps] makes of
    the output dictionary. *)
Definition main_body (json_dumps : Pattern → Z → Z → string → string)
    (shannon : list Q → Q) (mersenne : Z → nat → Q)
    (seed_arg size : Z) (pattern : Pattern) (format : Format) (world : Rng)
  : option (result (list string * Z)) :=
  let tileset := get_tileset pattern in
  let '(generator, world1) := __init__ mersenne size size tileset seed_arg world in
  match generate shannon generator world1 with
  | None => None
  | Some (Raise e) => Some (Raise e)
  | Some (Ok (success, generator', _)) =>
    if negb success then Some (Ok ([], 1))
    else
      match render generator' with
      | Raise e => Some (Raise e)
      | Ok out =>
        Some (Ok ([match format with
                   | JsonFormat => json_dumps pattern size seed_arg out
                   | TextFormat => out
                   end], 0))
      end
  end.

(** Whether character [c] occurs in [s]. *)
Fixpoint occurs (c : Ascii.ascii) (s : string) : bool :=
  match s with
  | EmptyString => false
  | String c' s' => bool_decide (c = c') || occurs c s'
  end.


(** [corner_collapsed] after [_propagate] from its corner. *)
Definition corner_propagated : WFCGenerator :=
  match _propagate corner_collapsed (0, 0) with
  | Ok (_, self') => self'
  | Raise _ => corner_collapsed
  end.


(** A generator whose tiles all have a positive weight and whose cells hold
    tiles of the tile set only. *)
Definition weighted (self : WFCGenerator) : Prop :=
  well_formed self
  ∧ (∀ t, t ∈ tileset self → (0 < weight t)%Qc)
  ∧ ∀ p c, grid self !! p = Some c → possibilities c ⊆ tileset self.

(** A tile with all four sockets and weight zero. *)
Definition weightless (symbol : string) : Tile := mkTile symbol all_sockets 0.

(** The keys [min] computes for the items of [l], in order, each drawing
    from the generator the one before left. *)
Fixpoint entropy_keys (shannon : list Q → Q) (l : list ((Z * Z) * Cell)) (g : Rng)
  : result (list Q * Rng) :=
  match l with
  | [] => Ok ([], g)
  | kc :: l' =>
    try (k, g') := entropy shannon kc.2 g in
    try (ks, g'') := entropy_keys shannon l' g' in
    Ok (k :: ks, g'')
  end.

(** Whether [entropy] draws a random number for the cell. *)
Definition draws (c : Cell) : bool :=
  negb (collapsed c) && (1 <? length (possibilities c))%nat.

(** The generator at the start of the 2 x 2 sample run. *)
Definition sample_start : WFCGenerator * Rng :=
  __init__ sample_stream 2 2 maze_tileset 42 (mkRng (λ _, 0%Q) 0).

(** Every cell holds tiles of the tile set only. *)
Definition within (self : WFCGenerator) : Prop :=
  ∀ p c, grid self !! p = Some c → possibilities c ⊆ tileset self.

(** The character of the text ["?"] that [render] appends for a cell without
    a tile. *)
Definition placeholder : Ascii.ascii := Ascii.ascii_of_nat 63.

(** A stand-in for [json.dumps]: the grid text alone. *)
Definition sample_dumps (pattern : Pattern) (size seed_arg : Z) (text : string) : string :=
  text.


(** [sol] gives every position a tile such that the tiles of any two
    neighbours connect. *)
Definition solution (self : WFCGenerator) (sol : Z * Z → Tile) : Prop :=
  ∀ p d q, in_bounds self p → (d, q) ∈ _get_neighbors self p →
           can_connect (sol p) (sol q) d = true.

(** The grid still allows [sol]: an uncollapsed cell holds the tile of
    [sol] among its possibilities, a collapsed cell has chosen it. *)
Definition allows (g : gmap (Z * Z) Cell) (sol : Z * Z → Tile) : Prop :=
  ∀ p c, g !! p = Some c → sol p ∈ representative_set c.

(** ** Basic facts *)

Lemma can_connect_spec a b d :
  can_connect a b d = true ↔
  dir_name d ∈ sockets a ∧ dir_name (opposite d) ∈ sockets b.
Proof.
  unfold can_connect. rewrite andb_true_iff, !bool_decide_eq_true. done.
Qed.

Lemma opposite_involutive d : opposite (opposite d) = d.
Proof. by destruct d. Qed.

Lemma can_connect_sym a b d : can_connect a b d = can_connect b a (opposite d).
Proof.
  unfold can_connect. rewrite opposite_involutive. apply andb_comm.
Qed.

Lemma elem_of_positions w h x y :
  (x, y) ∈ positions w h ↔ 0 ≤ x < w ∧ 0 ≤ y < h.
Proof.
  unfold positions. rewrite list_elem_of_bind. split.
  - intros (y' & Hx & Hy). apply list_elem_of_bind in Hx as (x' & Hp & Hx).
    apply list_elem_of_singleton in Hp. simplify_eq.
    apply elem_of_seqZ in Hx, Hy. lia.
  - intros [Hx Hy]. exists y. split; [|apply elem_of_seqZ; lia].
    apply list_elem_of_bind. exists x. split; [by apply list_elem_of_singleton|].
    apply elem_of_seqZ; lia.
Qed.

Lemma NoDup_positions w h : NoDup (positions w h).
Proof.
  unfold positions. apply NoDup_bind.
  - intros y1 y2 p _ _ H1 H2.
    apply list_elem_of_bind in H1 as (x1 & Hp1 & _), H2 as (x2 & Hp2 & _).
    apply list_elem_of_singleton in Hp1, Hp2. by simplify_eq.
  - intros y _. apply NoDup_bind.
    + intros x1 x2 p _ _ Hp1 Hp2.
      apply list_elem_of_singleton in Hp1, Hp2. by simplify_eq.
    + intros. apply NoDup_singleton.
    + apply NoDup_seqZ.
  - apply NoDup_seqZ.
Qed.

Lemma lookup_foldl_insert (f : Z * Z → Cell) (l : list (Z * Z)) (g : gmap (Z * Z) Cell) p :
  foldl (λ g p, <[p := f p]> g) g l !! p =
  if decide (p ∈ l) then Some (f p) else g !! p.
Proof.
  revert g. induction l as [|q l IH]; intros g; cbn [foldl].
  - case_decide as Hin; [by apply elem_of_nil in Hin|done].
  - rewrite IH. destruct (decide (p ∈ l)) as [Hin|Hnin].
    + rewrite decide_True; [done|by right].
    + destruct (decide (p = q)) as [->|Hne].
      * rewrite decide_True; [by rewrite lookup_insert_eq|left].
      * rewrite decide_False; [by rewrite lookup_insert_ne|].
        rewrite elem_of_cons; tauto.
Qed.

Lemma lookup_initialize_grid w h ts p :
  _initialize_grid w h ts !! p =
  if decide (p ∈ positions w h) then Some (mkCell p (remove_dups ts) false None) else None.
Proof. unfold _initialize_grid. by rewrite lookup_foldl_insert, lookup_empty. Qed.

Lemma elem_of_get_neighbors self pos d q :
  (d, q) ∈ _get_neighbors self pos ↔ q = shift d pos ∧ in_bounds self q.
Proof.
  destruct pos as [x y]. unfold _get_neighbors, in_bounds.
  rewrite list_elem_of_filter. simpl.
  rewrite !elem_of_cons, elem_of_nil.
  split.
  - intros [Hb [?|[?|[?|[?|[]]]]]]; simplify_eq; simpl in *; done.
  - intros [-> Hb]. split; [done|]. destruct d; simpl; tauto.
Qed.

Lemma shift_ne d p : shift d p ≠ p.
Proof. destruct p as [x y], d; simpl; intros ?; simplify_eq; lia. Qed.

Lemma shift_opposite d p : shift (opposite d) (shift d p) = p.
Proof. destruct p as [x y], d; simpl; f_equal; lia. Qed.

(** ** Narrowing *)

Lemma filter_length_eq {A} (P : A → Prop) `{!∀ x, Decision (P x)} (l : list A) :
  (length l ≤ length (filter P l))%nat → filter P l = l.
Proof.
  induction l as [|x l IH]; [done|]. rewrite filter_cons.
  pose proof (length_filter P l). case_decide; simpl; intros; [f_equal; apply IH|]; lia.
Qed.

Lemma cell_narrows_refl c : cell_narrows c c.
Proof. unfold cell_narrows. naive_solver. Qed.

Lemma cell_narrows_trans c1 c2 c3 :
  cell_narrows c1 c2 → cell_narrows c2 c3 → cell_narrows c1 c3.
Proof.
  intros (Hp1 & Hc1 & Hch1 & Hs1 & Hl1 & He1 & Hn1 & Hk1)
         (Hp2 & Hc2 & Hch2 & Hs2 & Hl2 & He2 & Hn2 & Hk2).
  unfold cell_narrows. split_and!; try congruence.
  - set_solver.
  - lia.
  - intros Hne He. destruct (decide (possibilities c2 = [])) as [Hnil|Hnil].
    + by apply He1.
    + rewrite <- Hc1. by apply He2.
  - auto.
  - intros Hc. rewrite (Hk1 Hc) in *. by apply Hk2.
Qed.

Lemma narrows_refl g : narrows g g.
Proof. intros p. destruct (g !! p); [apply cell_narrows_refl|done]. Qed.

Lemma narrows_trans g1 g2 g3 : narrows g1 g2 → narrows g2 g3 → narrows g1 g3.
Proof.
  intros H12 H23 p. specialize (H12 p). specialize (H23 p).
  destruct (g1 !! p), (g2 !! p), (g3 !! p); try done.
  by eapply cell_narrows_trans.
Qed.

Lemma narrows_insert g q nb nb' :
  g !! q = Some nb → cell_narrows nb nb' → narrows g (<[q := nb']> g).
Proof.
  intros Hq Hn p. destruct (decide (p = q)) as [->|Hne].
  - by rewrite lookup_insert_eq, Hq.
  - rewrite lookup_insert_ne by done. destruct (g !! p); [apply cell_narrows_refl|done].
Qed.

Lemma narrows_lookup g g' p c :
  narrows g g' → g !! p = Some c → ∃ c', g' !! p = Some c' ∧ cell_narrows c c'.
Proof.
  intros H Hp. specialize (H p). rewrite Hp in H.
  destruct (g' !! p) as [c'|]; [|done]. by exists c'.
Qed.

Lemma narrows_lookup_inv g g' p c' :
  narrows g g' → g' !! p = Some c' → ∃ c, g !! p = Some c ∧ cell_narrows c c'.
Proof.
  intros H Hp. specialize (H p). rewrite Hp in H.
  destruct (g !! p) as [c|]; [|done]. by exists c.
Qed.

Lemma cell_narrows_narrow cell nb d :
  collapsed nb = false → cell_narrows nb (narrow nb (valid_tiles cell nb d)).
Proof.
  intros Hc. unfold cell_narrows, narrow, valid_tiles. simpl. split_and!; try done.
  - intros t Ht. by apply list_elem_of_filter in Ht as [_ ?].
  - apply length_filter.
  - apply NoDup_filter.
  - intros ?. congruence.
Qed.

(** The four ways through the body of the [for] loop. *)
Lemma visit_neighbor_cases cell queue g d q fl :
  visit_neighbor cell queue g (d, q) = Ok fl →
  ∃ nb, g !! q = Some nb ∧
    ((collapsed nb = true ∧ fl = Next queue g)
     ∨ (collapsed nb = false ∧ valid_tiles cell nb d = possibilities nb
        ∧ fl = Next queue g)
     ∨ (collapsed nb = false
        ∧ (length (valid_tiles cell nb d) < length (possibilities nb))%nat
        ∧ valid_tiles cell nb d ≠ []
        ∧ fl = Next (queue ++ [q]) (<[q := narrow nb (valid_tiles cell nb d)]> g))
     ∨ (collapsed nb = false
        ∧ (length (valid_tiles cell nb d) < length (possibilities nb))%nat
        ∧ valid_tiles cell nb d = []
        ∧ fl = ReturnFalse queue (<[q := narrow nb (valid_tiles cell nb d)]> g))).
Proof.
  unfold visit_neighbor. destruct (g !! q) as [nb|]; [|done].
  intros H. exists nb. split; [done|].
  destruct (collapsed nb) eqn:Hc; [left; by simplify_eq|right].
  destruct (_ <? _)%nat eqn:Hlt.
  - apply Nat.ltb_lt in Hlt. right.
    case_bool_decide as He; simplify_eq; [right|left]; done.
  - apply Nat.ltb_ge in Hlt. left. split_and!; [done| |by simplify_eq].
    by apply filter_length_eq.
Qed.

Lemma visit_neighbor_narrows cell queue g dn fl :
  visit_neighbor cell queue g dn = Ok fl → narrows g (flow_grid fl).
Proof.
  destruct dn as [d q]. intros (nb & Hq & Hcases)%visit_neighbor_cases.
  destruct Hcases as [(? & ->)|[(? & ? & ->)|[(? & ? & ? & ->)|(? & ? & ? & ->)]]];
    simpl; try apply narrows_refl;
    eapply narrows_insert; eauto using cell_narrows_narrow.
Qed.

Lemma visit_neighbors_narrows cell nbs queue g fl :
  visit_neighbors cell nbs queue g = Ok fl → narrows g (flow_grid fl).
Proof.
  revert queue g. induction nbs as [|dn nbs IH]; intros queue g; simpl.
  - intros ?; simplify_eq. apply narrows_refl.
  - destruct (visit_neighbor cell queue g dn) as [[q1 g1|q1 g1]|] eqn:Hv; [| |done].
    + intros Hrest. eapply narrows_trans; [|by eapply IH].
      by apply visit_neighbor_narrows in Hv.
    + intros ?; simplify_eq. by apply visit_neighbor_narrows in Hv.
Qed.

(** The cell read before the [for] loop is not written by the loop: the
    neighbours are stored under other keys. *)
Lemma visit_neighbors_keeps_cell self pos cell queue g fl :
  visit_neighbors cell (_get_neighbors self pos) queue g = Ok fl →
  flow_grid fl !! pos = g !! pos.
Proof.
  assert (∀ nbs queue g fl,
            (∀ d q, (d, q) ∈ nbs → q ≠ pos) →
            visit_neighbors cell nbs queue g = Ok fl →
            flow_grid fl !! pos = g !! pos) as Hgen.
  { clear. intros nbs. induction nbs as [|[d q] nbs IH]; intros queue g fl Hne; simpl.
    - intros ?; by simplify_eq.
    - assert (q ≠ pos) as Hq by (apply (Hne d); left).
      assert (∀ d' q', (d', q') ∈ nbs → q' ≠ pos) as Hne'
        by (intros d' q' ?; apply (Hne d'); by right).
      destruct (visit_neighbor cell queue g (d, q)) as [fl1|] eqn:Hv; [|done].
      assert (flow_grid fl1 !! pos = g !! pos) as Hfl1.
      { apply visit_neighbor_cases in Hv as (nb & _ & Hcases).
        destruct Hcases as [(? & ->)|[(? & ? & ->)|[(? & ? & ? & ->)|(? & ? & ? & ->)]]];
          simpl; try done; by rewrite lookup_insert_ne. }
      destruct fl1 as [q1 g1|q1 g1]; simpl in *.
      + intros Hrest. by rewrite (IH _ _ _ Hne' Hrest).
      + intros ?; by simplify_eq. }
  apply Hgen. intros d q [-> _]%elem_of_get_neighbors. apply shift_ne.
Qed.

Lemma propagate_loop_narrows self budget iters queue g st :
  propagate_loop self budget iters queue g = Ok st → narrows g (exit_grid st).
Proof.
  revert iters queue g. induction budget as [|budget IH]; intros iters queue g.
  - destruct queue; simpl; intros ?; simplify_eq; apply narrows_refl.
  - destruct queue as [|pos queue]; simpl; [intros ?; simplify_eq; apply narrows_refl|].
    destruct (g !! pos) as [cell|]; [|done].
    destruct (visit_neighbors _ _ _ _) as [[q1 g1|q1 g1]|] eqn:Hv; [| |done].
    + intros Hrest. eapply narrows_trans; [|by eapply IH].
      by apply visit_neighbors_narrows in Hv.
    + intros ?; simplify_eq. by apply visit_neighbors_narrows in Hv.
Qed.

Lemma well_formed_narrows self g' :
  well_formed self → narrows (grid self) g' → well_formed (set_grid self g').
Proof.
  intros [Hk Hp Hc Hn] Hnar. split; simpl.
  - intros p. rewrite <- (Hk p). specialize (Hnar p).
    destruct (grid self !! p), (g' !! p); try done; split; intros [? ?]; eauto; done.
  - intros p c' (c & Hg & Hcn)%(narrows_lookup_inv _ _ _ _ Hnar).
    destruct Hcn as (-> & _). eauto.
  - intros p c' (c & Hg & Hcn)%(narrows_lookup_inv _ _ _ _ Hnar) Hcol.
    destruct Hcn as (_ & Hcc & _ & _ & _ & _ & _ & Hsame).
    rewrite Hcc in Hcol. rewrite (Hsame Hcol). eauto.
  - intros p c' (c & Hg & Hcn)%(narrows_lookup_inv _ _ _ _ Hnar).
    destruct Hcn as (_ & _ & _ & _ & _ & _ & Hnd & _). eauto.
Qed.

(** ** The size of the search space *)

Lemma total_possibilities_insert g q nb nb' :
  g !! q = Some nb →
  (total_possibilities (<[q := nb']> g) + length (possibilities nb)
   = total_possibilities g + length (possibilities nb'))%nat.
Proof.
  intros Hq. unfold total_possibilities.
  rewrite <- insert_delete_eq.
  rewrite map_fold_insert_L; [|intros; lia|apply lookup_delete_eq].
  rewrite (map_fold_delete_L _ _ q nb g); [lia|intros; lia|done].
Qed.

(** Each enqueue is paid for by a tile removed from some cell. *)
Lemma visit_neighbor_measure cell queue g dn fl :
  visit_neighbor cell queue g dn = Ok fl →
  (length (flow_queue fl) + total_possibilities (flow_grid fl)
   ≤ length queue + total_possibilities g)%nat.
Proof.
  destruct dn as [d q]. intros (nb & Hq & Hcases)%visit_neighbor_cases.
  destruct Hcases as [(? & ->)|[(? & ? & ->)|[(? & Hlt & ? & ->)|(? & Hlt & ? & ->)]]];
    simpl; try lia.
  - pose proof (total_possibilities_insert g q nb
                  (narrow nb (valid_tiles cell nb d)) Hq) as Ht.
    simpl in Ht. rewrite length_app. simpl. lia.
  - pose proof (total_possibilities_insert g q nb
                  (narrow nb (valid_tiles cell nb d)) Hq) as Ht.
    simpl in Ht. lia.
Qed.

Lemma visit_neighbors_measure cell nbs queue g fl :
  visit_neighbors cell nbs queue g = Ok fl →
  (length (flow_queue fl) + total_possibilities (flow_grid fl)
   ≤ length queue + total_possibilities g)%nat.
Proof.
  revert queue g. induction nbs as [|dn nbs IH]; intros queue g; simpl.
  - intros ?; simplify_eq. simpl. lia.
  - destruct (visit_neighbor cell queue g dn) as [[q1 g1|q1 g1]|] eqn:Hv; [| |done].
    + intros Hrest. apply visit_neighbor_measure in Hv. apply IH in Hrest.
      simpl in *. lia.
    + intros ?; simplify_eq. by apply visit_neighbor_measure in Hv.
Qed.

(** No exception inside a well-keyed grid. *)
Lemma visit_neighbors_ok self cell nbs queue g :
  (∀ p, in_bounds self p → is_Some (g !! p)) →
  (∀ d q, (d, q) ∈ nbs → in_bounds self q) →
  Forall (in_bounds self) queue →
  ∃ fl, visit_neighbors cell nbs queue g = Ok fl
        ∧ Forall (in_bounds self) (flow_queue fl).
Proof.
  revert queue g. induction nbs as [|[d q] nbs IH]; intros queue g Hkeys Hnbs Hqueue; simpl.
  - eauto.
  - destruct (Hkeys q) as [nb Hq]; [apply (Hnbs d); left|].
    destruct (visit_neighbor cell queue g (d, q)) as [fl|e] eqn:Hv.
    + pose proof (visit_neighbor_narrows _ _ _ _ _ Hv) as Hnar.
      apply visit_neighbor_cases in Hv as (nb' & Hq' & Hcases).
      assert (∀ p, in_bounds self p → is_Some (flow_grid fl !! p)) as Hkeys'.
      { intros p [c Hp]%Hkeys.
        destruct (narrows_lookup _ _ _ _ Hnar Hp) as (c' & -> & _). eauto. }
      assert (∀ d' q', (d', q') ∈ nbs → in_bounds self q') as Hnbs'.
      { intros d' q' ?. apply (Hnbs d'). by right. }
      destruct Hcases as [(? & ->)|[(? & ? & ->)|[(? & ? & ? & ->)|(? & ? & ? & ->)]]];
        simpl in *; eauto.
      apply IH; [done|done|]. apply Forall_app. split; [done|].
      apply Forall_singleton. apply (Hnbs d). left.
    + exfalso. unfold visit_neighbor in Hv. rewrite Hq in Hv.
      repeat (case_match; simplify_eq).
Qed.

(** With a budget of one pass per queued key and per tile, the loop is
    never cut short: it ends on an empty queue or on a contradiction. *)
Lemma propagate_loop_terminates self budget iters queue g :
  (∀ p, in_bounds self p → is_Some (g !! p)) →
  Forall (in_bounds self) queue →
  (length queue + total_possibilities g ≤ budget)%nat →
  ∃ st, propagate_loop self budget iters queue g = Ok st
        ∧ (returned st = false ∨ pending st = [])
        ∧ (iterations st + total_possibilities (exit_grid st)
           ≤ iters + length queue + total_possibilities g)%nat.
Proof.
  revert iters queue g.
  induction budget as [|budget IH]; intros iters queue g Hkeys Hqueue Hle.
  - destruct queue; simpl in *; [|lia]. eexists. split; [done|]. simpl. split; [auto|lia].
  - destruct queue as [|pos queue]; simpl in *.
    { eexists. split; [done|]. simpl. split; [auto|lia]. }
    apply Forall_cons in Hqueue as [Hpos Hqueue].
    destruct (Hkeys pos Hpos) as [cell ->].
    destruct (visit_neighbors_ok self cell (_get_neighbors self pos) queue g)
      as (fl & Hv & Hq'); [done| |done|].
    { intros d q Hin. by apply elem_of_get_neighbors in Hin as [_ ?]. }
    rewrite Hv.
    pose proof (visit_neighbors_measure _ _ _ _ _ Hv) as Hm.
    pose proof (visit_neighbors_narrows _ _ _ _ _ Hv) as Hnar.
    destruct fl as [q1 g1|q1 g1]; simpl in *.
    + destruct (IH (S iters) q1 g1) as (st & Hst & Hexit & Hcount); [|done|lia|].
      { intros p [c Hp]%Hkeys.
        destruct (narrows_lookup _ _ _ _ Hnar Hp) as (c' & -> & _). eauto. }
      exists st. split; [done|]. split; [done|lia].
    + eexists. split; [done|]. simpl. split; [auto|lia].
Qed.

(** ** Contradictions *)

Lemma visit_neighbor_Next_nonempty cell queue g dn queue' g' p c' :
  visit_neighbor cell queue g dn = Ok (Next queue' g') →
  g' !! p = Some c' → possibilities c' = [] →
  ∃ c, g !! p = Some c ∧ possibilities c = [].
Proof.
  destruct dn as [d q]. intros (nb & Hq & Hcases)%visit_neighbor_cases Hp He.
  destruct Hcases as [(? & ?)|[(? & ? & ?)|[(? & ? & Hne & ?)|(? & ? & ? & ?)]]];
    simplify_eq; eauto.
  destruct (decide (p = q)) as [->|Hpq].
  - rewrite lookup_insert_eq in Hp. by simplify_eq.
  - rewrite lookup_insert_ne in Hp by done. eauto.
Qed.

Lemma visit_neighbor_ReturnFalse cell queue g dn queue' g' :
  visit_neighbor cell queue g dn = Ok (ReturnFalse queue' g') →
  ∃ q nb nb', g !! q = Some nb ∧ possibilities nb ≠ []
              ∧ g' !! q = Some nb' ∧ collapsed nb' = false ∧ possibilities nb' = [].
Proof.
  destruct dn as [d q]. intros (nb & Hq & Hcases)%visit_neighbor_cases.
  destruct Hcases as [(? & ?)|[(? & ? & ?)|[(? & ? & Hne & ?)|(Hc & Hlt & He & ?)]]];
    simplify_eq.
  exists q, nb, (narrow nb (valid_tiles cell nb d)).
  rewrite lookup_insert_eq. split_and!; try done.
  intros Hnil. rewrite Hnil in Hlt. simpl in Hlt. lia.
Qed.

Lemma visit_neighbors_Next_nonempty cell nbs queue g queue' g' p c' :
  visit_neighbors cell nbs queue g = Ok (Next queue' g') →
  g' !! p = Some c' → possibilities c' = [] →
  ∃ c, g !! p = Some c ∧ possibilities c = [].
Proof.
  revert queue g. induction nbs as [|dn nbs IH]; intros queue g; simpl.
  - intros ?; simplify_eq. eauto.
  - destruct (visit_neighbor cell queue g dn) as [[q1 g1|q1 g1]|] eqn:Hv; [|done|done].
    intros Hrest Hp He. destruct (IH _ _ Hrest Hp He) as (c1 & Hp1 & He1).
    eapply visit_neighbor_Next_nonempty; eauto.
Qed.

Lemma visit_neighbors_ReturnFalse cell nbs queue g queue' g' :
  visit_neighbors cell nbs queue g = Ok (ReturnFalse queue' g') →
  ∃ q nb nb', g !! q = Some nb ∧ possibilities nb ≠ []
              ∧ g' !! q = Some nb' ∧ collapsed nb' = false ∧ possibilities nb' = [].
Proof.
  revert queue g. induction nbs as [|dn nbs IH]; intros queue g; simpl; [done|].
  destruct (visit_neighbor cell queue g dn) as [[q1 g1|q1 g1]|] eqn:Hv; [| |done].
  - intros (q & nb1 & nb' & Hq1 & Hne1 & Hq' & Hc & He)%IH.
    apply visit_neighbor_narrows in Hv. simpl in Hv.
    destruct (narrows_lookup_inv _ _ _ _ Hv Hq1) as (nb & Hq & Hcn).
    exists q, nb, nb'. split_and!; try done.
    intros Hnil. destruct Hcn as (_ & _ & _ & _ & Hlen & _).
    rewrite Hnil in Hlen. destruct (possibilities nb1); simpl in *; [done|lia].
  - intros ?; simplify_eq. by eapply visit_neighbor_ReturnFalse.
Qed.

Lemma propagate_loop_true_nonempty self budget iters queue g st p c' :
  propagate_loop self budget iters queue g = Ok st → returned st = true →
  exit_grid st !! p = Some c' → possibilities c' = [] →
  ∃ c, g !! p = Some c ∧ possibilities c = [].
Proof.
  revert iters queue g. induction budget as [|budget IH]; intros iters queue g.
  - destruct queue; simpl; intros ?; simplify_eq; simpl; eauto.
  - destruct queue as [|pos queue]; simpl; [intros ?; simplify_eq; simpl; eauto|].
    destruct (g !! pos) as [cell|]; [|done].
    destruct (visit_neighbors _ _ _ _) as [[q1 g1|q1 g1]|] eqn:Hv; [| |done].
    + intros Hrest Hret Hp He. destruct (IH _ _ _ Hrest Hret Hp He) as (c1 & Hp1 & He1).
      eapply visit_neighbors_Next_nonempty; eauto.
    + intros ?; simplify_eq. done.
Qed.

Lemma propagate_loop_false_empty self budget iters queue g st :
  propagate_loop self budget iters queue g = Ok st → returned st = false →
  ∃ q nb nb', g !! q = Some nb ∧ possibilities nb ≠ []
              ∧ exit_grid st !! q = Some nb' ∧ collapsed nb' = false
              ∧ possibilities nb' = [].
Proof.
  revert iters queue g. induction budget as [|budget IH]; intros iters queue g.
  - destruct queue; simpl; intros ?; simplify_eq; done.
  - destruct queue as [|pos queue]; simpl; [intros ?; simplify_eq; done|].
    destruct (g !! pos) as [cell|]; [|done].
    destruct (visit_neighbors _ _ _ _) as [[q1 g1|q1 g1]|] eqn:Hv; [| |done].
    + intros Hrest Hret.
      destruct (IH _ _ _ Hrest Hret) as (q & nb1 & nb' & Hq1 & Hne1 & Hq' & Hc & He).
      apply visit_neighbors_narrows in Hv. simpl in Hv.
      destruct (narrows_lookup_inv _ _ _ _ Hv Hq1) as (nb & Hq & Hcn).
      exists q, nb, nb'. split_and!; try done.
      intros Hnil. destruct Hcn as (_ & _ & _ & _ & Hlen & _).
      rewrite Hnil in Hlen. destruct (possibilities nb1); simpl in *; [done|lia].
    + intros ? _; simplify_eq. simpl. by eapply visit_neighbors_ReturnFalse.
Qed.

(** The exits of the loop: a [True] with keys still queued happens at the
    limit only. *)
Lemma propagate_loop_pending self budget iters queue g st :
  propagate_loop self budget iters queue g = Ok st →
  returned st = true → pending st ≠ [] →
  iterations st = (iters + budget)%nat.
Proof.
  revert iters queue g. induction budget as [|budget IH]; intros iters queue g.
  - destruct queue; simpl; intros ?; simplify_eq; simpl; [done|lia].
  - destruct queue as [|pos queue]; simpl; [intros ?; simplify_eq; done|].
    destruct (g !! pos) as [cell|]; [|done].
    destruct (visit_neighbors _ _ _ _) as [[q1 g1|q1 g1]|] eqn:Hv; [| |done].
    + intros Hrest Hret Hpend. rewrite (IH _ _ _ Hrest Hret Hpend). lia.
    + intros ?; simplify_eq. done.
Qed.

(** ** What the first pass of [_propagate] establishes *)

Lemma supported_spec cell d t :
  supported cell d t = true ↔
  ∃ c, Some c ∈ representatives cell ∧ can_connect c t d = true.
Proof.
  unfold supported. rewrite existsb_exists. split.
  - intros ([c|] & Hin & Hc); [|done]. exists c. by rewrite list_elem_of_In.
  - intros (c & Hin & Hc). exists (Some c). by rewrite <- list_elem_of_In.
Qed.

Lemma visit_neighbor_filtered cell queue g d q queue' g' nb' t :
  visit_neighbor cell queue g (d, q) = Ok (Next queue' g') →
  g' !! q = Some nb' → collapsed nb' = false → t ∈ possibilities nb' →
  supported cell d t = true.
Proof.
  intros (nb & Hq & Hcases)%visit_neighbor_cases Hq' Hc Ht.
  destruct Hcases as [(? & ?)|[(? & Hid & ?)|[(? & ? & Hne & ?)|(? & ? & ? & ?)]]];
    simplify_eq.
  - congruence.
  - rewrite <- Hid in Ht. unfold valid_tiles in Ht.
    by apply list_elem_of_filter in Ht as [? _].
  - rewrite lookup_insert_eq in Hq'. simplify_eq. simpl in Ht.
    unfold valid_tiles in Ht. by apply list_elem_of_filter in Ht as [? _].
Qed.

Lemma visit_neighbors_filtered cell nbs queue g queue' g' d q nb' t :
  visit_neighbors cell nbs queue g = Ok (Next queue' g') →
  (d, q) ∈ nbs →
  g' !! q = Some nb' → collapsed nb' = false → t ∈ possibilities nb' →
  supported cell d t = true.
Proof.
  revert queue g. induction nbs as [|dn nbs IH]; intros queue g; simpl.
  - intros _ Hin. by apply elem_of_nil in Hin.
  - destruct (visit_neighbor cell queue g dn) as [[q1 g1|q1 g1]|] eqn:Hv; [|done|done].
    intros Hrest Hin Hq' Hc Ht. apply elem_of_cons in Hin as [<-|Hin]; [|eauto].
    pose proof (visit_neighbors_narrows _ _ _ _ _ Hrest) as Hnar. simpl in Hnar.
    destruct (narrows_lookup_inv _ _ _ _ Hnar Hq') as (nb1 & Hq1 & Hcn).
    destruct Hcn as (_ & Hcc & _ & Hsub & _).
    eapply (visit_neighbor_filtered _ _ _ _ _ _ _ nb1);
      [exact Hv|exact Hq1|congruence|by apply Hsub].
Qed.

(** After a successful [_propagate] from a collapsed cell, whatever a
    neighbour may still become connects to the chosen tile. *)
Lemma propagate_first_pass self budget start g st cell c d q nb' t :
  propagate_loop self (S budget) 0 [start] g = Ok st → returned st = true →
  g !! start = Some cell → collapsed cell = true → chosen cell = Some c →
  (d, q) ∈ _get_neighbors self start →
  exit_grid st !! q = Some nb' → collapsed nb' = false → t ∈ possibilities nb' →
  can_connect c t d = true.
Proof.
  simpl. intros Hloop Hret Hstart Hcol Hch Hin Hq' Hc Ht. rewrite Hstart in Hloop.
  destruct (visit_neighbors _ _ _ _) as [[q1 g1|q1 g1]|] eqn:Hv; [| |done].
  - pose proof (propagate_loop_narrows _ _ _ _ _ _ Hloop) as Hnar.
    destruct (narrows_lookup_inv _ _ _ _ Hnar Hq') as (nb1 & Hq1 & Hcn).
    destruct Hcn as (_ & Hcc & _ & Hsub & _).
    assert (supported cell d t = true) as Hs.
    { eapply (visit_neighbors_filtered _ _ _ _ _ _ _ _ nb1);
        [exact Hv|exact Hin|exact Hq1|congruence|by apply Hsub]. }
    apply supported_spec in Hs as (c' & Hrep & Hcan).
    unfold representatives in Hrep. rewrite Hcol, Hch in Hrep.
    apply list_elem_of_singleton in Hrep. by simplify_eq.
  - simplify_eq; done.
Qed.

(** ** Weighted choice *)

Lemma bisect_loop_le fuel a x lo hi :
  (lo ≤ hi)%nat → (bisect_loop fuel a x lo hi ≤ hi)%nat.
Proof.
  revert lo hi. induction fuel as [|fuel IH]; intros lo hi Hle; cbn [bisect_loop]; [done|].
  destruct (lo <? hi)%nat eqn:Hlt; [|done]. apply Nat.ltb_lt in Hlt.
  assert (lo ≤ (lo + hi) / 2 < hi)%nat as [Hlo Hhi].
  { split; [apply Nat.div_le_lower_bound; lia|apply Nat.Div0.div_lt_upper_bound; lia]. }
  destruct (a !! _) as [y|]; [|lia].
  destruct (Qlt_le_dec x y).
  - etrans; [apply IH; lia|lia].
  - apply IH. lia.
Qed.

Lemma bisect_le a x hi : (bisect a x 0 hi ≤ hi)%nat.
Proof. apply bisect_loop_le. lia. Qed.

Lemma last_accumulate_positive acc ws :
  ws ≠ [] → (∀ w, w ∈ ws → (0 < w)%Q) → (0 <= acc)%Q →
  ∃ total, last (accumulate_from acc ws) = Some total ∧ (0 < total)%Q.
Proof.
  revert acc. induction ws as [|w ws IH]; intros acc Hne Hpos Hacc; [done|].
  assert (0 < w)%Q as Hw by (apply Hpos; left).
  destruct ws as [|w' ws].
  - simpl. eexists. split; [done|]. lra.
  - destruct (IH (acc + w)%Q) as (total & Hlast & Htotal); [done| |lra|].
    { intros ? ?. apply Hpos. by right. }
    exists total. split; [|done]. simpl in *. done.
Qed.

Lemma choices_elem population weights g t g' :
  choices population weights g = Ok (t, g') →
  t ∈ population ∧ g' = (random g).2.
Proof.
  unfold choices. destruct (last _) as [total|]; [|done].
  destruct (Qlt_le_dec 0 total); [|done].
  destruct (random g) as [r g1] eqn:Hr. simpl.
  destruct (population !! _) as [t'|] eqn:Hl; [|done].
  intros ?; simplify_eq. split; [|done]. by eapply list_elem_of_lookup_2.
Qed.

Lemma choices_ok (population : list Tile) g :
  population ≠ [] → (∀ t, t ∈ population → (0 < weight t)%Qc) →
  ∃ t, choices population ((λ t, this (weight t)) <$> population) g
       = Ok (t, (random g).2).
Proof.
  intros Hne Hpos. unfold choices, accumulate.
  destruct (last_accumulate_positive 0 ((λ t, this (weight t)) <$> population))
    as (total & -> & Htotal).
  - by destruct population.
  - intros w (t & -> & Ht)%list_elem_of_fmap. apply (Hpos t Ht).
  - lra.
  - destruct (Qlt_le_dec 0 total); [|lra].
    destruct (random g) as [r g1] eqn:Hr. simpl.
    destruct (lookup_lt_is_Some_2 population
                (bisect (accumulate_from 0 ((λ t, this (weight t)) <$> population))
                        (r * total) 0 (length population - 1))) as [t Ht].
    + pose proof (bisect_le (accumulate_from 0 ((λ t, this (weight t)) <$> population))
                    (r * total)%Q (length population - 1)).
      destruct population; simpl in *; [done|lia].
    + rewrite Ht. eauto.
Qed.

(** ** Collapsing a cell *)

Lemma collapse_cell_inv self ref g b self' g' :
  _collapse_cell self ref g = Ok (b, self', g') →
  ∃ cell, grid self !! ref = Some cell ∧
    ((b = false ∧ possibilities cell = [] ∧ self' = self ∧ g' = g)
     ∨ (b = true ∧ possibilities cell ≠ [] ∧ g' = (random g).2 ∧
        ∃ t, t ∈ possibilities cell
             ∧ self' = set_grid self (<[ref := collapse_to cell t]> (grid self)))).
Proof.
  unfold _collapse_cell. destruct (grid self !! ref) as [cell|]; [|done].
  intros H. exists cell. split; [done|].
  case_bool_decide as He; [left; by simplify_eq|right].
  destruct (choices _ _ g) as [[t g1]|] eqn:Hch; [|done]. simpl in H.
  apply choices_elem in Hch as [Ht ->]. simplify_eq. eauto 10.
Qed.

Lemma cell_narrows_collapse cell t :
  collapsed cell = false → t ∈ possibilities cell →
  possibilities (collapse_to cell t) ⊆ possibilities cell
  ∧ (length (possibilities (collapse_to cell t)) ≤ length (possibilities cell))%nat.
Proof.
  intros _ Ht. simpl. split.
  - intros t' ->%list_elem_of_singleton. done.
  - destruct (possibilities cell); [by apply elem_of_nil in Ht|simpl; lia].
Qed.

(** ** Selecting the next cell *)

Lemma elem_of_grid_items self p c :
  (p, c) ∈ grid_items self ↔ p ∈ positions (width self) (height self) ∧ grid self !! p = Some c.
Proof.
  unfold grid_items. rewrite list_elem_of_omap. split.
  - intros (p' & Hin & Hl). destruct (grid self !! p') eqn:Hg; simplify_eq/=. done.
  - intros [Hin Hl]. exists p. by rewrite Hl.
Qed.

Lemma elem_of_candidates self p c :
  (p, c) ∈ candidates self ↔
  p ∈ positions (width self) (height self) ∧ grid self !! p = Some c
  ∧ collapsed c = false ∧ possibilities c ≠ [].
Proof.
  unfold candidates. rewrite list_elem_of_filter, elem_of_grid_items.
  unfold is_candidate. simpl. rewrite andb_true_iff, negb_true_iff, Nat.ltb_lt.
  destruct (possibilities c); simpl; split; intros; destruct_and?; split_and?;
    try done; lia.
Qed.

(** ** Cells left to collapse *)

Lemma elem_of_uncollapsed g p :
  p ∈ uncollapsed g ↔ ∃ c, g !! p = Some c ∧ collapsed c = false.
Proof.
  unfold uncollapsed. rewrite elem_of_dom. unfold is_Some.
  setoid_rewrite map_lookup_filter_Some. naive_solver.
Qed.

Lemma uncollapsed_narrows g g' : narrows g g' → uncollapsed g' = uncollapsed g.
Proof.
  intros Hnar. apply set_eq. intros p. rewrite !elem_of_uncollapsed. split.
  - intros (c' & (c & Hg & Hcn)%(narrows_lookup_inv _ _ _ _ Hnar) & Hc).
    destruct Hcn as (_ & Hcc & _). exists c. split; [done|congruence].
  - intros (c & (c' & Hg & Hcn)%(narrows_lookup _ _ _ _ Hnar) & Hc).
    destruct Hcn as (_ & Hcc & _). exists c'. split; [done|congruence].
Qed.

Lemma uncollapsed_collapse g ref cell t :
  uncollapsed (<[ref := collapse_to cell t]> g) = uncollapsed g ∖ {[ ref ]}.
Proof.
  apply set_eq. intros p.
  rewrite elem_of_difference, !elem_of_uncollapsed, elem_of_singleton.
  destruct (decide (p = ref)) as [->|Hne].
  - rewrite lookup_insert_eq. split; [|tauto]. by intros (c & ? & Hc); simplify_eq.
  - rewrite lookup_insert_ne by done. tauto.
Qed.

Lemma uncollapsed_size_grid g : (size (uncollapsed g) ≤ size g)%nat.
Proof.
  rewrite <- (size_dom (D := gset (Z * Z)) g). apply subseteq_size.
  unfold uncollapsed. apply dom_filter_subseteq.
Qed.

(** ** Well-formed generators *)

Lemma well_formed_collapse self ref cell t :
  well_formed self → grid self !! ref = Some cell →
  well_formed (set_grid self (<[ref := collapse_to cell t]> (grid self))).
Proof.
  intros [Hk Hp Hc Hn] Hg. split; simpl.
  - intros p. rewrite <- (Hk p). destruct (decide (p = ref)) as [->|Hne].
    + rewrite lookup_insert_eq, Hg. split; eauto.
    + by rewrite lookup_insert_ne.
  - intros p c. destruct (decide (p = ref)) as [->|Hne].
    + rewrite lookup_insert_eq. intros ?; simplify_eq. simpl. eauto.
    + rewrite lookup_insert_ne by done. eauto.
  - intros p c. destruct (decide (p = ref)) as [->|Hne].
    + rewrite lookup_insert_eq. intros ? _; simplify_eq. simpl. eauto.
    + rewrite lookup_insert_ne by done. eauto.
  - intros p c. destruct (decide (p = ref)) as [->|Hne].
    + rewrite lookup_insert_eq. intros ?; simplify_eq. simpl. apply NoDup_singleton.
    + rewrite lookup_insert_ne by done. eauto.
Qed.

Lemma well_formed_initial w h ts :
  well_formed (mkGen w h ts (_initialize_grid w h ts)).
Proof.
  split; simpl.
  - intros [x y]. rewrite lookup_initialize_grid. unfold in_bounds. simpl.
    case_decide as Hin; rewrite elem_of_positions in Hin.
    + split; eauto.
    + split; [by intros [? ?]|tauto].
  - intros p c. rewrite lookup_initialize_grid. case_decide; intros ?; by simplify_eq.
  - intros p c. rewrite lookup_initialize_grid. case_decide; intros ?; by simplify_eq.
  - intros p c. rewrite lookup_initialize_grid. case_decide; intros ?; simplify_eq.
    simpl. apply NoDup_remove_dups.
Qed.

Lemma in_bounds_positions self p :
  in_bounds self p ↔ p ∈ positions (width self) (height self).
Proof. destruct p. by rewrite elem_of_positions. Qed.

Section Run.

Variable shannon : list Q → Q.
Variable mersenne : Z → nat → Q.

Lemma min_entropy_elem best k rest g b g' :
  min_entropy shannon best k rest g = Ok (b, g') → b ∈ best :: rest.
Proof.
  revert best k g. induction rest as [|kc rest IH]; intros best k g; simpl.
  - intros ?; simplify_eq. left.
  - destruct (entropy shannon kc.2 g) as [[k1 g1]|]; [|done]. simpl.
    destruct (Qlt_le_dec k1 k); intros H%IH.
    + apply elem_of_cons in H as [->|H]; [right; left|right; by right].
    + apply elem_of_cons in H as [->|H]; [left|right; by right].
Qed.

Lemma find_minimum_entropy_cell_Some self g ref cell g' :
  _find_minimum_entropy_cell shannon self g = Ok (Some (ref, cell), g') →
  (ref, cell) ∈ candidates self.
Proof.
  unfold _find_minimum_entropy_cell.
  destruct (candidates self) as [|kc rest]; [done|].
  destruct (entropy shannon kc.2 g) as [[k1 g1]|]; [|done]. simpl.
  destruct (min_entropy shannon kc k1 rest g1) as [[best g2]|] eqn:Hmin; [|done].
  simpl. intros ?; simplify_eq. by eapply min_entropy_elem.
Qed.

Lemma find_minimum_entropy_cell_None self g g' :
  _find_minimum_entropy_cell shannon self g = Ok (None, g') →
  candidates self = [] ∧ g' = g.
Proof.
  unfold _find_minimum_entropy_cell.
  destruct (candidates self) as [|kc rest]; [by intros ?; simplify_eq|].
  destruct (entropy shannon kc.2 g) as [[k1 g1]|]; [|done]. simpl.
  by destruct (min_entropy shannon kc k1 rest g1) as [[best g2]|].
Qed.

(** The ways through one pass of [generate]'s loop. *)
Lemma generate_step_inv self g o :
  generate_step shannon self g = Ok o →
  (candidates self = [] ∧ o = Return (all_collapsed self) self g)
  ∨ (∃ ref cell t st g1,
       (ref, cell) ∈ candidates self ∧ t ∈ possibilities cell
       ∧ _find_minimum_entropy_cell shannon self g = Ok (Some (ref, cell), g1)
       ∧ propagate_run (set_grid self (<[ref := collapse_to cell t]> (grid self)))
                       (position cell) = Ok st
       ∧ o = (if returned st
              then Continue (set_grid self (exit_grid st)) (random g1).2
              else Return false (set_grid self (exit_grid st)) (random g1).2)).
Proof.
  unfold generate_step.
  destruct (_find_minimum_entropy_cell shannon self g) as [[[[ref cell]|] g1]|] eqn:Hsel;
    [| |done]; simpl.
  - intros H. right.
    pose proof (find_minimum_entropy_cell_Some _ _ _ _ _ Hsel) as Hcand.
    pose proof Hcand as (Hpos & Hg & Hc & Hne)%elem_of_candidates.
    destruct (_collapse_cell self ref g1) as [[[b self2] g2]|] eqn:Hcol; [|done].
    simpl in H.
    apply collapse_cell_inv in Hcol as (cell' & Hg' & Hcases).
    rewrite Hg in Hg'. simplify_eq.
    destruct Hcases as [(-> & He & _)|(-> & _ & -> & t & Ht & ->)]; [done|].
    simpl in H. rewrite lookup_insert_eq in H. simpl in H.
    unfold _propagate in H.
    destruct (propagate_run _ _) as [st|] eqn:Hrun; [|done]. simpl in H.
    exists ref, cell', t, st, g1. split_and!; try done.
    destruct (returned st); simpl in H; by simplify_eq.
  - apply find_minimum_entropy_cell_None in Hsel as [Hc ->].
    intros ?; simplify_eq. by left.
Qed.

(** *** Progress: every pass that continues collapses one more cell *)

Lemma generate_step_progress self g self' g' :
  generate_step shannon self g = Ok (Continue self' g') →
  (size (uncollapsed (grid self')) < size (uncollapsed (grid self)))%nat.
Proof.
  intros [(_ & ?)|(ref & cell & t & st & g1 & Hcand & Ht & _ & Hrun & Ho)]%generate_step_inv;
    [done|].
  apply elem_of_candidates in Hcand as (_ & Hg & Hc & _).
  destruct (returned st); [|done]. simplify_eq. simpl.
  rewrite (uncollapsed_narrows _ _ (propagate_loop_narrows _ _ _ _ _ _ Hrun)).
  simpl. rewrite uncollapsed_collapse. apply subset_size.
  apply subset_difference_elem_of. apply elem_of_uncollapsed; eauto.
Qed.

Lemma generate_loop_returns fuel self g :
  (size (uncollapsed (grid self)) < fuel)%nat →
  ∃ r, generate_loop shannon fuel self g = Some r.
Proof.
  revert self g. induction fuel as [|fuel IH]; intros self g Hlt; [lia|].
  simpl. destruct (generate_step shannon self g) as [[self' g'|b self' g']|e] eqn:Hstep;
    eauto.
  apply IH. apply generate_step_progress in Hstep. lia.
Qed.

(** The fuel of [generate] is enough: the loop always returns. *)
Corollary generate_returns self g : ∃ r, generate shannon self g = Some r.
Proof.
  apply generate_loop_returns. pose proof (uncollapsed_size_grid (grid self)). lia.
Qed.

(** *** The invariant behind adjacency soundness *)

Lemma all_collapsed_spec self :
  all_collapsed self = true ↔
  ∀ p c, in_bounds self p → grid self !! p = Some c → collapsed c = true.
Proof.
  unfold all_collapsed. rewrite forallb_forall. split.
  - intros H p c Hp Hg. apply (H (p, c)). apply list_elem_of_In.
    apply elem_of_grid_items. by rewrite <- in_bounds_positions.
  - intros H [p c] Hin%list_elem_of_In%elem_of_grid_items. simpl.
    destruct Hin as [Hp Hg]. apply (H p c); [|done]. by apply in_bounds_positions.
Qed.

Lemma adjacency_step self ref cell t st :
  well_formed self → adjacency_invariant self →
  (ref, cell) ∈ candidates self → t ∈ possibilities cell →
  propagate_run (set_grid self (<[ref := collapse_to cell t]> (grid self)))
                (position cell) = Ok st →
  returned st = true →
  adjacency_invariant (set_grid self (exit_grid st)).
Proof.
  intros Hwf Hadj (Hpos & Hg & Hc & Hne)%elem_of_candidates Ht Hrun Hret.
  pose proof (propagate_loop_narrows _ _ _ _ _ _ Hrun) as Hnar. simpl in Hnar.
  assert (position cell = ref) as Hposition by (by eapply wf_position).
  rewrite Hposition in Hrun.
  intros p cp tp d q cq t' Hp Hcp Htp Hin Hq Ht'. simpl in Hp, Hq.
  change (_get_neighbors (set_grid self (exit_grid st)) p)
    with (_get_neighbors self p) in Hin.
  destruct (narrows_lookup_inv _ _ _ _ Hnar Hp) as (cp2 & Hp2 & Hcnp).
  destruct (narrows_lookup_inv _ _ _ _ Hnar Hq) as (cq2 & Hq2 & Hcnq).
  destruct Hcnp as (_ & Hcolp & _ & _ & _ & _ & _ & Hsamep).
  rewrite Hcp in Hcolp. symmetry in Hcolp. specialize (Hsamep Hcolp). subst cp.
  destruct Hcnq as (_ & Hcolq & _ & Hsubq & _ & _ & _ & Hsameq).
  pose proof Hin as [Hshift Hqb]%elem_of_get_neighbors.
  assert (q ≠ p) as Hqp by (rewrite Hshift; apply shift_ne).
  destruct (decide (p = ref)) as [->|Hpref].
  - rewrite lookup_insert_eq in Hp2. injection Hp2 as Hp2. subst cp2.
    simpl in Htp. injection Htp as Htp. subst t.
    rewrite lookup_insert_ne in Hq2 by done.
    destruct (collapsed cq) eqn:Hcq.
    + symmetry in Hcolq. specialize (Hsameq Hcolq). subst cq.
      destruct (wf_collapsed _ Hwf _ _ Hq2 Hcolq) as (tq & Htq & Hposs).
      rewrite Hposs in Ht'. apply list_elem_of_singleton in Ht'. subst t'.
      rewrite can_connect_sym.
      eapply (Hadj q cq2 tq (opposite d) ref cell tp); try done.
      apply elem_of_get_neighbors. split.
      * by rewrite Hshift, shift_opposite.
      * by apply in_bounds_positions.
    + unfold propagate_run in Hrun.
      replace (Z.to_nat PROPAGATION_LIMIT) with (S (Z.to_nat (PROPAGATION_LIMIT - 1)))
        in Hrun by (unfold PROPAGATION_LIMIT; lia).
      eapply (propagate_first_pass _ _ _ _ _ (collapse_to cell tp) tp d q cq t');
        try done.
      simpl. by rewrite lookup_insert_eq.
  - rewrite lookup_insert_ne in Hp2 by done.
    apply Hsubq in Ht'.
    destruct (decide (q = ref)) as [->|Hqref].
    + rewrite lookup_insert_eq in Hq2. injection Hq2 as Hq2. subst cq2.
      simpl in Ht'. apply list_elem_of_singleton in Ht'. subst t'.
      by eapply (Hadj p cp2 tp d ref cell t).
    + rewrite lookup_insert_ne in Hq2 by done.
      by eapply (Hadj p cp2 tp d q cq2 t').
Qed.

Lemma generate_step_invariant self g self' g' :
  well_formed self → adjacency_invariant self →
  generate_step shannon self g = Ok (Continue self' g') →
  well_formed self' ∧ adjacency_invariant self'
  ∧ width self' = width self ∧ height self' = height self
  ∧ tileset self' = tileset self.
Proof.
  intros Hwf Hadj
    [(_ & ?)|(ref & cell & t & st & g1 & Hcand & Ht & _ & Hrun & Ho)]%generate_step_inv;
    [done|].
  destruct (returned st) eqn:Hret; [|done]. simplify_eq.
  pose proof Hcand as (_ & Hg & _)%elem_of_candidates.
  split_and!; try done.
  - apply (well_formed_narrows (set_grid self (<[ref := collapse_to cell t]> (grid self)))).
    + by apply well_formed_collapse.
    + by eapply propagate_loop_narrows.
  - by eapply adjacency_step.
Qed.

Lemma generate_loop_success fuel self g self' g' :
  well_formed self → adjacency_invariant self →
  generate_loop shannon fuel self g = Some (Ok (true, self', g')) →
  well_formed self' ∧ adjacency_invariant self' ∧ all_collapsed self' = true
  ∧ width self' = width self ∧ height self' = height self.
Proof.
  revert self g. induction fuel as [|fuel IH]; intros self g Hwf Hadj; [done|].
  simpl. destruct (generate_step shannon self g) as [[self1 g1|b self1 g1]|e] eqn:Hstep.
  - intros Hloop.
    destruct (generate_step_invariant _ _ _ _ Hwf Hadj Hstep) as (? & ? & Hw & Hh & _).
    rewrite <- Hw, <- Hh. by eapply IH.
  - intros ?; simplify_eq.
    apply generate_step_inv in Hstep
      as [(_ & ?)|(ref & cell & t & st & g1 & _ & _ & _ & _ & Ho)]; [by simplify_eq|].
    destruct (returned st); simplify_eq.
  - done.
Qed.

End Run.

(** * Properties of the specification *)

Lemma adjacency_invariant_initial w h ts :
  adjacency_invariant (mkGen w h ts (_initialize_grid w h ts)).
Proof.
  intros p cp t d q cq t' Hp Hc. simpl in Hp. rewrite lookup_initialize_grid in Hp.
  case_decide; simplify_eq; done.
Qed.



(** ** The propagation limit *)

Lemma no_empty_cell_spec g : no_empty_cell g = true ↔ ¬ has_empty g.
Proof.
  unfold no_empty_cell, has_empty. rewrite bool_decide_eq_true. split.
  - intros H (p & c & Hp & He). by apply (H p c Hp).
  - intros H p c Hp He. apply H. eauto.
Qed.

(** C1 (amended) -- Whatever the limit, when [_propagate] ends
    with keys still queued and no possibility set empty, it has used up the
    limit and returns [True]: reaching the limit is reported as success,
    with the narrowing done so far. *)
Theorem propagation_limit_returns_true self budget start st :
  propagate_loop self budget 0 [start] (grid self) = Ok st →
  pending st ≠ [] → ¬ has_empty (exit_grid st) →
  returned st = true ∧ iterations st = budget.
Proof.
  intros Hloop Hpend Hne.
  assert (returned st = true) as Hret.
  { destruct (returned st) eqn:Hret; [done|]. exfalso. apply Hne.
    destruct (propagate_loop_false_empty _ _ _ _ _ _ Hloop Hret)
      as (q & nb & nb' & _ & _ & Hq & _ & He).
    by exists q, nb'. }
  split; [done|]. by rewrite (propagate_loop_pending _ _ _ _ _ _ Hloop Hret Hpend).
Qed.

Lemma propagation_limit_returns_true_witness :
  returned one_pass = true ∧ iterations one_pass = 1%nat.
Proof.
  apply (propagation_limit_returns_true corner_collapsed 1 (0, 0) one_pass).
  - vm_compute. reflexivity.
  - vm_compute. discriminate.
  - apply no_empty_cell_spec. vm_compute. reflexivity.
Defined.

(** C1 as stated fails.  On a 51 x 51 grid of shutter tiles the first
    [_propagate] call of [generate] stops after 10000 iterations with keys
    still queued and no empty set; it returns [True], and [generate] goes
    on to the next pass instead of failing. *)
Lemma propagation_limit_not_failure :
  limit_case = Some (true, PROPAGATION_LIMIT, true, true, true).
Proof. vm_compute. reflexivity. Qed.

(** ** Two generators on the shared random generator *)

Lemma single_initial :
  mkGen 1 1 maze_tileset (_initialize_grid 1 1 maze_tileset) = single fresh_cell.
Proof. reflexivity. Qed.

Lemma single_items c : grid_items (single c) = [((0, 0), c)].
Proof.
  unfold grid_items. simpl. change (positions 1 1) with [(0, 0)]. simpl.
  by rewrite lookup_singleton_eq.
Qed.

Lemma choices_maze g :
  choices maze_tileset ((λ t, this (weight t)) <$> maze_tileset) g
  = Ok (pick (stream g (cursor g)), (random g).2).
Proof.
  unfold choices.
  change (last (accumulate ((λ t, this (weight t)) <$> maze_tileset))) with (Some (3 # 1)).
  destruct (Qlt_le_dec 0 3) as [_|Hbad]; [|exfalso; lra].
  unfold random. simpl. unfold pick.
  change (accumulate _) with [2 # 1; 3 # 1].
  unfold bisect. cbn [bisect_loop length maze_tileset Nat.sub Nat.ltb Nat.leb].
  change ((0 + 1) / 2)%nat with 0%nat. cbn [lookup list_lookup].
  destruct (Qlt_le_dec _ _); reflexivity.
Qed.

Lemma collapse_single_fresh g :
  _collapse_cell (single fresh_cell) (0, 0) g
  = Ok (true, single (collapse_to fresh_cell (pick (stream g (cursor g)))), (random g).2).
Proof.
  unfold _collapse_cell. simpl. rewrite lookup_singleton_eq.
  change (possibilities fresh_cell) with maze_tileset.
  rewrite bool_decide_eq_false_2 by done.
  rewrite choices_maze. simpl. unfold set_grid, single. simpl.
  by rewrite insert_singleton_eq.
Qed.

Lemma propagate_single c : _propagate (single c) (0, 0) = Ok (true, single c).
Proof.
  unfold _propagate, propagate_run.
  replace (Z.to_nat PROPAGATION_LIMIT) with (S (Z.to_nat (PROPAGATION_LIMIT - 1)))
    by (unfold PROPAGATION_LIMIT; lia).
  simpl. rewrite lookup_singleton_eq.
  change (_get_neighbors (single c) (0, 0)) with (@nil (Direction * (Z * Z))).
  simpl. by destruct (Z.to_nat (PROPAGATION_LIMIT - 1)).
Qed.

Lemma single_step_fresh shannon g :
  generate_step shannon (single fresh_cell) g
  = Ok (Continue (single (collapse_to fresh_cell (pick (stream g (S (cursor g))))))
                 (mkRng (stream g) (S (S (cursor g))))).
Proof.
  unfold generate_step, _find_minimum_entropy_cell, candidates.
  rewrite single_items. simpl.
  rewrite collapse_single_fresh. simpl. rewrite lookup_singleton_eq. simpl.
  by rewrite propagate_single.
Qed.

Lemma single_step_collapsed shannon t g :
  generate_step shannon (single (collapse_to fresh_cell t)) g
  = Ok (Return true (single (collapse_to fresh_cell t)) g).
Proof.
  unfold generate_step, _find_minimum_entropy_cell, candidates, all_collapsed.
  rewrite single_items. reflexivity.
Qed.

(** A run on one cell draws twice: the jitter, then the tile. *)
Lemma single_generate shannon g :
  generate shannon (single fresh_cell) g
  = Some (Ok (true, single (collapse_to fresh_cell (pick (stream g (S (cursor g))))),
              mkRng (stream g) (S (S (cursor g))))).
Proof.
  unfold generate. simpl. rewrite map_size_singleton. simpl.
  rewrite single_step_fresh. by rewrite single_step_collapsed.
Qed.

(** [__init__] reseeds: a run that generates right after its construction
    does not depend on what the shared generator did before. *)
Remark init_discards_world mersenne w h ts s world1 world2 :
  __init__ mersenne w h ts s world1 = __init__ mersenne w h ts s world2.
Proof. reflexivity. Qed.

(** C3 (where the code departs from it) -- Two generators built with the
    same width, height, tile set and seed before either generates, as in
    [test_deterministic_seed], do not run alike: the second draws where the
    first stopped.  On one cell of maze tiles the first run's tile is
    decided by output 1 of the seeded stream and the second run's by
    output 3; when these fall on either side of 2/3 the two grids differ. *)
Theorem shared_generator_breaks_determinism shannon mersenne s world :
  (2 <= mersenne s 1%nat * 3)%Q → (mersenne s 3%nat * 3 < 2)%Q →
  ∃ gen1' gen2',
    two_generators shannon mersenne 1 1 maze_tileset s world
    = Some (Ok ((true, gen1'), (true, gen2')))
    ∧ rendered gen1' (0, 0) = Some " " ∧ rendered gen2' (0, 0) = Some "█".
Proof.
  intros H1 H3. unfold two_generators, __init__. rewrite single_initial.
  rewrite !single_generate. simpl. eexists _, _. split; [done|].
  unfold rendered, single. simpl. rewrite !lookup_singleton_eq. simpl.
  unfold pick.
  destruct (Qlt_le_dec (mersenne s 1%nat * 3) 2); [exfalso; lra|].
  destruct (Qlt_le_dec (mersenne s 3%nat * 3) 2); [|exfalso; lra].
  done.
Qed.

Lemma shared_generator_witness :
  ∃ gen1' gen2',
    two_generators sample_shannon (λ _, seed0_stream) 1 1 maze_tileset 0
                   (mkRng (λ _, 0%Q) 0)
    = Some (Ok ((true, gen1'), (true, gen2')))
    ∧ rendered gen1' (0, 0) = Some " " ∧ rendered gen2' (0, 0) = Some "█".
Proof.
  apply (shared_generator_breaks_determinism sample_shannon (λ _, seed0_stream) 0).
  - vm_compute. discriminate.
  - vm_compute. reflexivity.
Defined.

(** ** One propagation step *)

Lemma representatives_spec cell c :
  Some c ∈ representatives cell ↔ c ∈ representative_set cell.
Proof.
  unfold representatives, representative_set. destruct (collapsed cell).
  - rewrite list_elem_of_singleton. destruct (chosen cell) as [c'|]; simpl.
    + rewrite list_elem_of_singleton. split; intros ?; by simplify_eq.
    + rewrite elem_of_nil. split; [done|tauto].
  - rewrite list_elem_of_fmap. split.
    + intros (c' & ? & ?). by simplify_eq.
    + intros ?. by exists c.
Qed.

Lemma elem_of_valid_tiles cell neighbor d t :
  t ∈ valid_tiles cell neighbor d ↔
  t ∈ possibilities neighbor
  ∧ ∃ c, c ∈ representative_set cell ∧ can_connect c t d = true.
Proof.
  unfold valid_tiles. rewrite list_elem_of_filter, supported_spec.
  setoid_rewrite representatives_spec. tauto.
Qed.



(** The assertions of [test_tile_connectivity]. *)
Example test_tile_connectivity :
  let t1 := mkTile "─" {[ "E"; "W" ]} 1 in
  let t2 := mkTile "│" {[ "N"; "S" ]} 1 in
  let t3 := mkTile "┌" {[ "S"; "E" ]} 1 in
  can_connect t1 t1 East = true ∧ can_connect t1 t2 East = false
  ∧ can_connect t3 t1 East = true.
Proof. vm_compute. done. Qed.

(** ** Monotonic narrowing *)

Lemma run_step_narrows self self' p c :
  run_step self self' → grid self !! p = Some c →
  ∃ c', grid self' !! p = Some c'
        ∧ possibilities c' ⊆ possibilities c
        ∧ (length (possibilities c') ≤ length (possibilities c))%nat.
Proof.
  intros [self0 ref g b self1 g1 Hcol|self0 start b self1 Hprop] Hp.
  - apply collapse_cell_inv in Hcol as (cell & Href & Hcases).
    destruct Hcases as [(_ & _ & -> & _)|(_ & Hne & _ & t & Ht & ->)]; [eauto|].
    simpl. destruct (decide (p = ref)) as [->|Hpr].
    + rewrite lookup_insert_eq. rewrite Hp in Href. injection Href as <-.
      eexists. split; [done|]. simpl. split.
      * intros t' ->%list_elem_of_singleton. done.
      * destruct (possibilities c); [done|simpl; lia].
    + rewrite lookup_insert_ne by done. eauto.
  - unfold _propagate in Hprop.
    destruct (propagate_run self0 start) as [st|] eqn:Hrun; [|done].
    simpl in Hprop. simplify_eq. simpl.
    apply propagate_loop_narrows in Hrun.
    destruct (narrows_lookup _ _ _ _ Hrun Hp) as (c' & Hp' & Hcn).
    destruct Hcn as (_ & _ & _ & Hsub & Hlen & _). eauto.
Qed.

(** C5 -- Monotonic narrowing.  Between any two points of a run, that is
    across any sequence of [_collapse_cell] and [_propagate] calls (from
    the initial grid in particular), every cell keeps its key and its
    possibility set never gains a tile: the later set is included in the
    earlier one and is no larger. *)
Theorem monotonic_narrowing self self' p c :
  rtc run_step self self' → grid self !! p = Some c →
  ∃ c', grid self' !! p = Some c'
        ∧ possibilities c' ⊆ possibilities c
        ∧ (length (possibilities c') ≤ length (possibilities c))%nat.
Proof.
  intros Hrun. revert c. induction Hrun as [self|self self1 self2 Hstep _ IH]; intros c Hp.
  - eauto.
  - destruct (run_step_narrows _ _ _ _ Hstep Hp) as (c1 & Hp1 & Hsub1 & Hlen1).
    destruct (IH c1 Hp1) as (c2 & Hp2 & Hsub2 & Hlen2).
    exists c2. split; [done|]. split; [set_solver|lia].
Qed.

Lemma monotonic_narrowing_witness :
  ∃ c', grid corner_collapsed !! (0, 0) = Some c'
        ∧ possibilities c' ⊆ shutter_tileset
        ∧ (length (possibilities c') ≤ 5)%nat.
Proof.
  apply (monotonic_narrowing
           (mkGen 3 3 shutter_tileset (_initialize_grid 3 3 shutter_tileset))
           corner_collapsed (0, 0) (mkCell (0, 0) shutter_tileset false None)).
  - eapply rtc_l; [|apply rtc_refl].
    apply (step_collapse _ (0, 0) (mkRng (zero_stream 0) 0) true _
             (mkRng (zero_stream 0) 1)).
    vm_compute. reflexivity.
  - vm_compute. reflexivity.
Defined.

(** ** The collapse operation *)

Lemma collapse_cell_ok self ref cell g :
  grid self !! ref = Some cell → possibilities cell ≠ [] →
  (∀ t, t ∈ possibilities cell → (0 < weight t)%Qc) →
  ∃ t, t ∈ possibilities cell
       ∧ choices (possibilities cell) ((λ t, this (weight t)) <$> possibilities cell) g
         = Ok (t, (random g).2)
       ∧ _collapse_cell self ref g
         = Ok (true, set_grid self (<[ref := collapse_to cell t]> (grid self)),
               (random g).2).
Proof.
  intros Href Hne Hpos. destruct (choices_ok (possibilities cell) g Hne Hpos) as [t Hch].
  exists t. split; [by apply choices_elem in Hch as [? _]|]. split; [done|].
  unfold _collapse_cell. rewrite Href. rewrite bool_decide_eq_false_2 by done.
  by rewrite Hch.
Qed.



(** ** A contradiction is not rolled back *)

Lemma forallb_false_elem {A} (f : A → bool) (l : list A) :
  forallb f l = false → ∃ x, x ∈ l ∧ f x = false.
Proof.
  induction l as [|x l IH]; [done|]. simpl. destruct (f x) eqn:Hx.
  - intros (y & Hy & Hfy)%IH. exists y. split; [by right|done].
  - intros _. exists x. split; [left|done].
Qed.

Lemma generate_step_false_empty shannon self g self' g' :
  generate_step shannon self g = Ok (Return false self' g') →
  ∃ q c, grid self' !! q = Some c ∧ collapsed c = false ∧ possibilities c = [].
Proof.
  intros [(Hcand & Ho)|(ref & cell & t & st & g1 & _ & _ & _ & Hrun & Ho)]%generate_step_inv.
  - injection Ho as Hall Hs Hg. subst self' g'. symmetry in Hall.
    apply forallb_false_elem in Hall as ([p c] & Hin & Hc). simpl in Hc.
    pose proof Hin as [Hpos Hg]%elem_of_grid_items.
    exists p, c. split_and!; [done..|].
    destruct (decide (possibilities c = [])) as [|Hne]; [done|]. exfalso.
    assert ((p, c) ∈ candidates self) as Hin'
      by (apply elem_of_candidates; split_and!; done).
    rewrite Hcand in Hin'. by apply elem_of_nil in Hin'.
  - destruct (returned st) eqn:Hret; [done|]. injection Ho as Hs Hg. subst self' g'.
    simpl. destruct (propagate_loop_false_empty _ _ _ _ _ _ Hrun Hret)
      as (q & _ & nb' & _ & _ & Hq & Hc & He). eauto.
Qed.

Lemma generate_loop_false_empty shannon fuel self g self' g' :
  generate_loop shannon fuel self g = Some (Ok (false, self', g')) →
  ∃ q c, grid self' !! q = Some c ∧ collapsed c = false ∧ possibilities c = [].
Proof.
  revert self g. induction fuel as [|fuel IH]; intros self g; [done|]. simpl.
  destruct (generate_step shannon self g) as [[self1 g1|b self1 g1]|e] eqn:Hstep.
  - apply IH.
  - intros ?; simplify_eq. by eapply generate_step_false_empty.
  - done.
Qed.

(** C10 -- A contradiction is not rolled back.  When [_propagate] returns
    [False], some cell that had tiles when the call began is left in the
    grid uncollapsed with an empty possibility set: the empty set was
    stored before the return, and the grid of the call's start is not
    restored.  So the grid of a run that [generate] ends with [False] holds
    an uncollapsed cell whose possibility set is empty. *)
Theorem contradiction_not_rolled_back :
  (∀ self start_pos self',
     _propagate self start_pos = Ok (false, self') →
     ∃ q before after,
       grid self !! q = Some before ∧ possibilities before ≠ []
       ∧ grid self' !! q = Some after
       ∧ collapsed after = false ∧ possibilities after = [])
  ∧ (∀ shannon self g self' g',
       generate shannon self g = Some (Ok (false, self', g')) →
       ∃ q c, grid self' !! q = Some c ∧ collapsed c = false ∧ possibilities c = []).
Proof.
  split.
  - intros self start self' Hprop. unfold _propagate in Hprop.
    destruct (propagate_run self start) as [st|] eqn:Hrun; [|done].
    simpl in Hprop. injection Hprop as Hret Hs. subst self'. simpl.
    by eapply propagate_loop_false_empty.
  - intros shannon self g self' g'. apply generate_loop_false_empty.
Qed.

Lemma contradiction_not_rolled_back_witness :
  ∃ q before after,
    grid blocked_start !! q = Some before ∧ possibilities before ≠ []
    ∧ grid blocked_end !! q = Some after
    ∧ collapsed after = false ∧ possibilities after = [].
Proof.
  apply (proj1 contradiction_not_rolled_back blocked_start (0, 0) blocked_end).
  vm_compute. reflexivity.
Defined.

(** ** Termination of propagation *)

(** Once the loop has ended on an empty queue or a contradiction, a larger
    limit changes nothing. *)
Lemma propagate_loop_budget_mono self budget iters queue g st budget' :
  propagate_loop self budget iters queue g = Ok st →
  returned st = false ∨ pending st = [] →
  (budget ≤ budget')%nat →
  propagate_loop self budget' iters queue g = Ok st.
Proof.
  revert iters queue g budget'.
  induction budget as [|budget IH]; intros iters queue g budget' Hloop Hexit Hle.
  - destruct queue as [|pos queue]; simpl in Hloop; simplify_eq.
    + by destruct budget'.
    + simpl in Hexit. by destruct Hexit.
  - destruct budget' as [|budget']; [lia|].
    destruct queue as [|pos queue]; simpl in *; [done|].
    destruct (g !! pos) as [cell|]; [|done].
    destruct (visit_neighbors _ _ _ _) as [[q1 g1|q1 g1]|]; [|done|done].
    apply IH; [done|done|lia].
Qed.

(** C8 -- Termination without the ceiling.  From any grid that holds a cell
    for every coordinate of the rectangle and any start inside it, the
    loop run with a ceiling above the sum of the possibility-set sizes is
    never stopped by the ceiling: it ends on an empty queue or on a
    contradiction.  Every iteration after the first is paid for by a tile
    removed from some set, so the iteration count plus the remaining sum is
    at most one more than the initial sum; any larger ceiling gives the
    same result. *)
Theorem propagation_terminates self start_pos budget :
  (∀ p, in_bounds self p → is_Some (grid self !! p)) →
  in_bounds self start_pos →
  (total_possibilities (grid self) < budget)%nat →
  ∃ st,
    propagate_loop self budget 0 [start_pos] (grid self) = Ok st
    ∧ (returned st = false ∨ pending st = [])
    ∧ (iterations st + total_possibilities (exit_grid st)
       ≤ 1 + total_possibilities (grid self))%nat
    ∧ ∀ budget', (budget ≤ budget')%nat →
        propagate_loop self budget' 0 [start_pos] (grid self) = Ok st.
Proof.
  intros Hkeys Hstart Hlt.
  destruct (propagate_loop_terminates self budget 0 [start_pos] (grid self))
    as (st & Hloop & Hexit & Hcount); [done|by apply Forall_singleton|simpl; lia|].
  exists st. split_and!; [done|done|simpl in Hcount; lia|].
  intros budget' Hle. by eapply propagate_loop_budget_mono.
Qed.

Lemma propagation_terminates_witness :
  ∃ st,
    propagate_loop corner_collapsed 42 0 [(0, 0)] (grid corner_collapsed) = Ok st
    ∧ (returned st = false ∨ pending st = [])
    ∧ (iterations st + total_possibilities (exit_grid st)
       ≤ 1 + total_possibilities (grid corner_collapsed))%nat
    ∧ ∀ budget', (42 ≤ budget')%nat →
        propagate_loop corner_collapsed budget' 0 [(0, 0)] (grid corner_collapsed)
        = Ok st.
Proof.
  apply (propagation_terminates corner_collapsed (0, 0) 42).
  - intros [x y] [Hx Hy]. simpl in Hx, Hy.
    assert (x = 0 ∨ x = 1 ∨ x = 2) as Hxs by lia.
    assert (y = 0 ∨ y = 1 ∨ y = 2) as Hys by lia.
    destruct Hxs as [-> | [-> | ->]], Hys as [-> | [-> | ->]]; vm_compute; eauto.
  - vm_compute. repeat split; discriminate.
  - vm_compute. lia.
Defined.

(** ** A contradiction ends the run *)

Lemma head_invariant_initial w h ts :
  head_invariant (mkGen w h ts (_initialize_grid w h ts)).
Proof.
  split; [apply well_formed_initial|].
  intros (p & c & Hp & He). simpl in Hp. rewrite lookup_initialize_grid in Hp.
  case_decide; [|done]. injection Hp as <-. simpl in He.
  destruct (candidates _) as [|[q cq] rest] eqn:Hcand; [done|]. exfalso.
  assert ((q, cq) ∈ candidates (mkGen w h ts (_initialize_grid w h ts))) as Hin
    by (rewrite Hcand; left).
  apply elem_of_candidates in Hin as (_ & Hq & _ & Hne). simpl in Hq.
  rewrite lookup_initialize_grid in Hq. case_decide; [|done].
  injection Hq as <-. simpl in Hne. congruence.
Qed.

Lemma generate_step_continue_nonempty shannon self g self' g' :
  head_invariant self →
  generate_step shannon self g = Ok (Continue self' g') →
  head_invariant self' ∧ ¬ has_empty (grid self').
Proof.
  intros [Hwf Hhead] Hstep.
  pose proof Hstep
    as [(_ & ?)|(ref & cell & t & st & g1 & Hcand & Ht & _ & Hrun & Ho)]%generate_step_inv;
    [done|].
  destruct (returned st) eqn:Hret; [|done]. injection Ho as Hs Hg. subst self' g'.
  assert (¬ has_empty (grid self)) as Hfull.
  { intros He. rewrite (Hhead He) in Hcand. by apply elem_of_nil in Hcand. }
  assert (¬ has_empty (exit_grid st)) as Hfull'.
  { intros (p & c' & Hp & He).
    destruct (propagate_loop_true_nonempty _ _ _ _ _ _ _ _ Hrun Hret Hp He)
      as (c & Hc & Hce). simpl in Hc.
    destruct (decide (p = ref)) as [->|Hne].
    - rewrite lookup_insert_eq in Hc. injection Hc as <-. done.
    - rewrite lookup_insert_ne in Hc by done. apply Hfull. by exists p, c. }
  split; [|done]. split; [|done].
  apply elem_of_candidates in Hcand as (_ & Hg & _).
  apply (well_formed_narrows (set_grid self (<[ref := collapse_to cell t]> (grid self)))).
  - by apply well_formed_collapse.
  - by eapply propagate_loop_narrows.
Qed.

Lemma head_invariant_reachable shannon s s' :
  rtc (continues shannon) s s' → head_invariant s.1 → head_invariant s'.1.
Proof.
  induction 1 as [s|s s1 s2 Hstep _ IH]; [done|]. intros Hinv. apply IH.
  unfold continues in Hstep.
  by destruct (generate_step_continue_nonempty _ _ _ _ _ Hinv Hstep).
Qed.

(** C6 -- A contradiction ends the run.  At every pass of [generate]'s loop
    in a run started by [__init__]: if some set is empty when the pass
    begins, the pass collapses nothing and [generate] returns [False] with
    the grid as it is; and if some set is empty when the pass ends, the
    pass is the last one -- [generate] returns [False] with the grid of
    that moment, so no cell is collapsed afterwards. *)
Theorem contradiction_is_terminal shannon mersenne w h ts s world self g o :
  rtc (continues shannon) (__init__ mersenne w h ts s world) (self, g) →
  generate_step shannon self g = Ok o →
  (has_empty (grid self) →
     o = Return false self g
     ∧ ∀ fuel, generate_loop shannon (S fuel) self g = Some (Ok (false, self, g)))
  ∧ (has_empty (grid (outcome_generator o)) →
     ∃ g', o = Return false (outcome_generator o) g'
           ∧ ∀ fuel, generate_loop shannon (S fuel) self g
                     = Some (Ok (false, outcome_generator o, g'))).
Proof.
  intros Hreach Hstep.
  pose proof (head_invariant_reachable _ _ _ Hreach (head_invariant_initial w h ts))
    as Hinv. simpl in Hinv.
  assert (has_empty (grid (outcome_generator o)) →
          ∃ g', o = Return false (outcome_generator o) g') as Hend.
  { intros He. destruct o as [self' g'|b self' g']; simpl in He.
    - by destruct (generate_step_continue_nonempty _ _ _ _ _ Hinv Hstep) as [_ Hfull].
    - simpl. exists g'. destruct b; [|done]. exfalso.
      destruct Hinv as [Hwf Hhead].
      pose proof Hstep
        as [(Hcand & Ho)|(ref & cell & t & st & g1 & _ & _ & _ & _ & Ho)]%generate_step_inv.
      + injection Ho as Hall Hs Hg. subst self' g'. symmetry in Hall.
        rewrite all_collapsed_spec in Hall.
        destruct He as (p & c & Hp & Hnil).
        assert (collapsed c = true) as Hc.
        { apply (Hall p c); [|done]. apply (wf_keys _ Hwf). eauto. }
        destruct (wf_collapsed _ Hwf _ _ Hp Hc) as (t & _ & Hposs). congruence.
      + by destruct (returned st). }
  split.
  - intros He. destruct Hinv as [Hwf Hhead]. specialize (Hhead He).
    pose proof Hstep
      as [(_ & Ho)|(ref & cell & t & st & g1 & Hcand & _)]%generate_step_inv.
    + assert (o = Return false self g) as ->.
      { subst o. destruct (Hend He) as (g' & Ho). by injection Ho as ->. }
      split; [done|]. intros fuel. simpl. by rewrite Hstep.
    + rewrite Hhead in Hcand. by apply elem_of_nil in Hcand.
  - intros He. destruct (Hend He) as (g' & Ho). exists g'. split; [done|].
    intros fuel. simpl. rewrite Hstep. by rewrite Ho.
Qed.

Lemma contradiction_is_terminal_witness :
  ∃ g', generate_loop sample_shannon 1
          (mkGen 2 1 [closed_tile East] (_initialize_grid 2 1 [closed_tile East]))
          (seed zero_stream 42)
        = Some (Ok (false, blocked_end, g')).
Proof.
  destruct (contradiction_is_terminal sample_shannon zero_stream
              2 1 [closed_tile East] 42 (mkRng (λ _, 0%Q) 0)
              (mkGen 2 1 [closed_tile East] (_initialize_grid 2 1 [closed_tile East]))
              (seed zero_stream 42)
              (Return false blocked_end (mkRng (zero_stream 42) 1)))
    as [_ Hend].
  - apply rtc_refl.
  - vm_compute. reflexivity.
  - destruct Hend as (g' & _ & Hloop).
    + exists (1, 0), (mkCell (1, 0) [] false None). split; vm_compute; reflexivity.
    + exists g'. apply (Hloop 0%nat).
Defined.

(** ** Tile sets that cannot contradict *)

Lemma four_way_connect a b d : four_way a → four_way b → can_connect a b d = true.
Proof. intros Ha Hb. apply can_connect_spec. split; [apply Ha|apply Hb]. Qed.

Lemma filter_all {A} (P : A → Prop) `{!∀ x, Decision (P x)} (l : list A) :
  (∀ x, x ∈ l → P x) → filter P l = l.
Proof.
  intros Hall. apply filter_length_eq. induction l as [|x l IH]; [done|].
  rewrite filter_cons, decide_True by (apply Hall; left). simpl.
  assert (∀ y, y ∈ l → P y) as Hall' by (intros; apply Hall; by right).
  specialize (IH Hall'). lia.
Qed.

Lemma ready_supported self p cell d q nb t :
  ready self → grid self !! p = Some cell → grid self !! q = Some nb →
  t ∈ possibilities nb → supported cell d t = true.
Proof.
  intros (Hwf & Hts & Hcells) Hp Hq Ht.
  destruct (Hcells p cell Hp) as [Hne Hsub].
  destruct (Hcells q nb Hq) as [_ Hsubq].
  apply supported_spec.
  assert (∃ c, c ∈ possibilities cell) as [c Hc].
  { destruct (possibilities cell) as [|c rest]; [done|]. exists c. left. }
  assert (∃ c', Some c' ∈ representatives cell ∧ c' ∈ possibilities cell)
    as (c' & Hrep & Hc').
  { unfold representatives. destruct (collapsed cell) eqn:Hcol.
    - destruct (wf_collapsed _ Hwf _ _ Hp Hcol) as (t0 & Hch & Hp0).
      exists t0. rewrite Hch, Hp0. split; left.
    - exists c. split; [|done]. by apply list_elem_of_fmap_2. }
  exists c'. split; [done|].
  apply four_way_connect; [apply Hts, Hsub, Hc'|apply Hts, Hsubq, Ht].
Qed.

Lemma visit_neighbors_ready self p cell nbs queue :
  ready self → grid self !! p = Some cell →
  (∀ d q, (d, q) ∈ nbs → in_bounds self q) →
  visit_neighbors cell nbs queue (grid self) = Ok (Next queue (grid self)).
Proof.
  intros Hready Hp. induction nbs as [|[d q] nbs IH]; intros Hnbs; [done|].
  simpl. destruct (proj2 (wf_keys _ (proj1 Hready) q)) as [nb Hq].
  { apply (Hnbs d). left. }
  assert (visit_neighbor cell queue (grid self) (d, q) = Ok (Next queue (grid self)))
    as ->.
  { unfold visit_neighbor. rewrite Hq. destruct (collapsed nb); [done|].
    unfold valid_tiles. rewrite filter_all.
    - by rewrite Nat.ltb_irrefl.
    - intros t Ht. by eapply ready_supported. }
  apply IH. intros d' q' ?. apply (Hnbs d'). by right.
Qed.

Lemma propagate_ready self start_pos :
  ready self → in_bounds self start_pos →
  _propagate self start_pos = Ok (true, set_grid self (grid self)).
Proof.
  intros Hready Hstart. unfold _propagate, propagate_run.
  destruct (Z.to_nat PROPAGATION_LIMIT) as [|n] eqn:Hn;
    [unfold PROPAGATION_LIMIT in Hn; lia|].
  cbn [propagate_loop].
  destruct (proj2 (wf_keys _ (proj1 Hready) start_pos) Hstart) as [cell Hcell].
  rewrite Hcell. rewrite (visit_neighbors_ready self start_pos cell); [|done|done|].
  - by destruct n.
  - intros d q Hin. by apply elem_of_get_neighbors in Hin as [_ ?].
Qed.

Lemma ready_collapse self ref cell t :
  ready self → grid self !! ref = Some cell → t ∈ possibilities cell →
  ready (set_grid self (<[ref := collapse_to cell t]> (grid self))).
Proof.
  intros (Hwf & Hts & Hcells) Href Ht. split; [by apply well_formed_collapse|].
  split; [done|]. simpl. intros p c. destruct (decide (p = ref)) as [->|Hne].
  - rewrite lookup_insert_eq. intros Hc. injection Hc as <-. simpl. split; [done|].
    intros t' ->%list_elem_of_singleton. by apply (Hcells ref cell Href).
  - rewrite lookup_insert_ne by done. apply Hcells.
Qed.

Lemma foldl_Qplus_positive (ws : list Q) (acc : Q) :
  (0 <= acc)%Q → (∀ w, w ∈ ws → (0 < w)%Q) → ws ≠ [] →
  (0 < foldl Qplus acc ws)%Q.
Proof.
  revert acc. induction ws as [|w ws IH]; intros acc Hacc Hpos Hne; [done|].
  assert (0 < w)%Q as Hw by (apply Hpos; left). simpl.
  destruct ws as [|w' ws]; [simpl; lra|].
  apply IH; [lra| |done]. intros ? ?. apply Hpos. by right.
Qed.

(** With positive weights the division in [Cell.entropy] is defined. *)
Lemma entropy_ok shannon c g :
  (∀ t, t ∈ possibilities c → (0 < weight t)%Qc) →
  ∃ k g', entropy shannon c g = Ok (k, g').
Proof.
  intros Hpos. unfold entropy.
  destruct (collapsed c || (length (possibilities c) <=? 1)%nat) eqn:Hshort; [eauto|].
  destruct (Qeq_bool _ 0) eqn:Hzero.
  - exfalso. apply Qeq_bool_iff in Hzero.
    assert (0 < foldl Qplus 0 ((λ t, this (weight t)) <$> possibilities c))%Q as Hlt.
    { apply foldl_Qplus_positive; [lra| |].
      - intros w (t & -> & Ht)%list_elem_of_fmap. apply (Hpos t Ht).
      - apply orb_false_iff in Hshort as [_ Hlen]. apply Nat.leb_gt in Hlen.
        destruct (possibilities c); simpl in *; [lia|done]. }
    rewrite Hzero in Hlt. lra.
  - destruct (random g). eauto.
Qed.

Lemma min_entropy_ok shannon best k rest g :
  (∀ kc t, kc ∈ rest → t ∈ possibilities kc.2 → (0 < weight t)%Qc) →
  ∃ b g', min_entropy shannon best k rest g = Ok (b, g').
Proof.
  revert best k g. induction rest as [|kc rest IH]; intros best k g Hpos; simpl; [eauto|].
  destruct (entropy_ok shannon kc.2 g) as (k1 & g1 & ->).
  { intros t. apply Hpos. left. }
  simpl. destruct (Qlt_le_dec k1 k); apply IH; intros kc' t ?; apply Hpos; by right.
Qed.

Lemma generate_step_ready shannon self g :
  ready self →
  (candidates self = [] ∧ generate_step shannon self g = Ok (Return true self g))
  ∨ (∃ self' g', generate_step shannon self g = Ok (Continue self' g')
                 ∧ ready self'
                 ∧ width self' = width self ∧ height self' = height self
                 ∧ tileset self' = tileset self).
Proof.
  intros Hready. pose proof Hready as (Hwf & Hts & Hcells).
  assert (∀ kc t, kc ∈ candidates self → t ∈ possibilities kc.2 → (0 < weight t)%Qc)
    as Hweights.
  { intros [p c] t (_ & Hp & _)%elem_of_candidates Ht. simpl in Ht.
    by apply Hts, (Hcells p c Hp). }
  unfold generate_step, _find_minimum_entropy_cell.
  destruct (candidates self) as [|kc rest] eqn:Hcand.
  - left. split; [done|]. simpl. do 3 f_equal. apply all_collapsed_spec.
    intros p c Hp Hg. destruct (collapsed c) eqn:Hc; [done|]. exfalso.
    assert ((p, c) ∈ candidates self) as Hin.
    { apply elem_of_candidates. split_and!; try done.
      - by apply in_bounds_positions.
      - by apply (Hcells p c). }
    rewrite Hcand in Hin. by apply elem_of_nil in Hin.
  - right. destruct (entropy_ok shannon kc.2 g) as (k1 & g1 & ->).
    { intros t. apply Hweights. left. }
    simpl. destruct (min_entropy_ok shannon kc k1 rest g1) as ([ref cell] & g2 & Hmin).
    { intros kc' t ?. apply Hweights. by right. }
    rewrite Hmin. simpl.
    assert ((ref, cell) ∈ candidates self) as Hin.
    { rewrite Hcand. by eapply min_entropy_elem. }
    apply elem_of_candidates in Hin as (Hpos & Href & Hcol & Hne).
    destruct (collapse_cell_ok self ref cell g2 Href Hne) as (t & Ht & _ & Hok).
    { intros t Ht. by apply Hts, (Hcells ref cell Href). }
    rewrite Hok. simpl. rewrite lookup_insert_eq. simpl.
    rewrite (wf_position _ Hwf _ _ Href).
    rewrite (propagate_ready (set_grid self (<[ref := collapse_to cell t]> (grid self))) ref).
    + simpl. eexists _, _. split; [done|]. split; [|done].
      exact (ready_collapse self ref cell t Hready Href Ht).
    + by apply ready_collapse.
    + by apply in_bounds_positions.
Qed.

Lemma generate_loop_ready shannon fuel self g :
  ready self → (size (uncollapsed (grid self)) < fuel)%nat →
  ∃ self' g', generate_loop shannon fuel self g = Some (Ok (true, self', g'))
              ∧ ready self' ∧ candidates self' = []
              ∧ width self' = width self ∧ height self' = height self
              ∧ tileset self' = tileset self.
Proof.
  revert self g. induction fuel as [|fuel IH]; intros self g Hready Hlt; [lia|].
  simpl. destruct (generate_step_ready shannon self g Hready)
    as [(Hcand & ->)|(self1 & g1 & Hstep & Hready1 & Hw & Hh & Hts)].
  - eauto 10.
  - rewrite Hstep. rewrite <- Hw, <- Hh, <- Hts. apply IH; [done|].
    apply generate_step_progress in Hstep. lia.
Qed.

(** C9 -- The maze example.  Both maze tiles connect to each other in every
    direction, and the run on a 3 x 3 grid with seed 42 -- whatever the
    outputs of the generator and the entropy values -- returns [True] with
    each of the 9 cells collapsed to a maze tile, so that no cell renders
    as '?'. *)
Theorem maze_3x3_succeeds shannon mersenne world :
  (∀ a b d, a ∈ maze_tileset → b ∈ maze_tileset → can_connect a b d = true)
  ∧ length (positions 3 3) = 9%nat
  ∧ ∃ gen' g',
      generate shannon (__init__ mersenne 3 3 maze_tileset 42 world).1
                       (__init__ mersenne 3 3 maze_tileset 42 world).2
      = Some (Ok (true, gen', g'))
      ∧ ∀ p, p ∈ positions 3 3 →
          ∃ c t, grid gen' !! p = Some c ∧ collapsed c = true
                 ∧ chosen c = Some t ∧ possibilities c = [t]
                 ∧ t ∈ maze_tileset
                 ∧ rendered gen' p = Some (symbol t) ∧ symbol t ≠ "?".
Proof.
  assert (∀ t, t ∈ maze_tileset → four_way t ∧ (0 < weight t)%Qc) as Hmaze.
  { intros t Ht. repeat (apply elem_of_cons in Ht as [->|Ht]);
      [| |by apply elem_of_nil in Ht];
      (split; [by intros []; vm_compute|by vm_compute]). }
  split; [|split; [reflexivity|]].
  { intros a b d Ha Hb. apply four_way_connect; by apply Hmaze. }
  assert (ready (mkGen 3 3 maze_tileset (_initialize_grid 3 3 maze_tileset))) as Hready.
  { split; [apply well_formed_initial|]. split; [done|].
    intros p c. simpl. rewrite lookup_initialize_grid. case_decide; [|done].
    intros Hc. injection Hc as <-. simpl. split; [done|].
    intros t Ht. by apply elem_of_remove_dups in Ht. }
  destruct (generate_loop_ready shannon
              (S (size (_initialize_grid 3 3 maze_tileset)))
              (mkGen 3 3 maze_tileset (_initialize_grid 3 3 maze_tileset))
              (seed mersenne 42) Hready)
    as (gen' & g' & Hgen & (Hwf & _ & Hcells) & Hcand & Hw & Hh & Hts).
  { pose proof (uncollapsed_size_grid (_initialize_grid 3 3 maze_tileset)). simpl. lia. }
  exists gen', g'. split; [exact Hgen|].
  intros p Hp. simpl in Hw, Hh, Hts.
  destruct (proj2 (wf_keys _ Hwf p)) as [c Hc].
  { apply in_bounds_positions. by rewrite Hw, Hh. }
  destruct (Hcells p c Hc) as [Hne Hsub].
  assert (collapsed c = true) as Hcol.
  { destruct (collapsed c) eqn:Hcol; [done|]. exfalso.
    assert ((p, c) ∈ candidates gen') as Hin.
    { apply elem_of_candidates. rewrite Hw, Hh. done. }
    rewrite Hcand in Hin. by apply elem_of_nil in Hin. }
  destruct (wf_collapsed _ Hwf _ _ Hc Hcol) as (t & Ht & Hposs).
  assert (t ∈ maze_tileset) as Htm.
  { rewrite <- Hts. apply Hsub. rewrite Hposs. left. }
  exists c, t. split_and!; try done.
  - unfold rendered. rewrite Hc. simpl. by rewrite Hcol, Ht.
  - repeat (apply elem_of_cons in Htm as [->|Htm]); [done|done|by apply elem_of_nil in Htm].
Qed.

(** * Further properties of the program *)

(** ** Neighbours and the initial grid *)

(** X1 -- [_get_neighbors] is symmetric: if [q] is the neighbour of an
    in-grid position [p] in direction [d], then [p] is the neighbour of [q]
    in the opposite direction. *)
Theorem neighbors_symmetric self p d q :
  in_bounds self p → (d, q) ∈ _get_neighbors self p →
  (opposite d, p) ∈ _get_neighbors self q.
Proof.
  intros Hp [-> Hq]%elem_of_get_neighbors. apply elem_of_get_neighbors.
  split; [by rewrite shift_opposite|done].
Qed.

Lemma neighbors_symmetric_witness :
  (North, (1, 0)) ∈ _get_neighbors corner_collapsed (1, 1).
Proof.
  apply (neighbors_symmetric corner_collapsed (1, 0) South (1, 1)).
  - vm_compute. repeat split; discriminate.
  - vm_compute. left.
Defined.

(** X2 -- The shape of [_get_neighbors]: at most four entries, in the order
    N, S, E, W; every entry lies inside the grid one step from [pos] and is
    never [pos] itself; a position with all four steps inside the grid
    (as (1, 1) in a 3 x 3 grid) gets exactly the four. *)
Theorem neighbors_shape self x y :
  (length (_get_neighbors self (x, y)) ≤ 4)%nat
  ∧ (∀ d q, (d, q) ∈ _get_neighbors self (x, y) →
       q = shift d (x, y) ∧ in_bounds self q ∧ q ≠ (x, y))
  ∧ (0 < x < width self - 1 → 0 < y < height self - 1 →
     _get_neighbors self (x, y)
     = [(North, (x, y - 1)); (South, (x, y + 1)); (East, (x + 1, y)); (West, (x - 1, y))]).
Proof.
  split_and!.
  - unfold _get_neighbors. etrans; [apply length_filter|]. done.
  - intros d q [-> Hq]%elem_of_get_neighbors. split_and!; [done|done|apply shift_ne].
  - intros Hx Hy. unfold _get_neighbors.
    rewrite !filter_cons, filter_nil. simpl.
    rewrite !decide_True by lia. done.
Qed.

Lemma length_bind_const {A B} (f : A → list B) (l : list A) (n : nat) :
  (∀ x, length (f x) = n) → length (l ≫= f) = (length l * n)%nat.
Proof.
  intros Hf. induction l as [|x l IH]; [done|].
  csimpl. rewrite length_app, Hf, IH. lia.
Qed.

Lemma length_positions w h :
  length (positions w h) = (Z.to_nat w * Z.to_nat h)%nat.
Proof.
  unfold positions. rewrite (length_bind_const _ _ (Z.to_nat w)).
  - rewrite length_seqZ. lia.
  - intros y. rewrite (length_bind_const _ _ 1%nat); [|done].
    rewrite length_seqZ. lia.
Qed.

Lemma size_foldl_insert (f : Z * Z → Cell) (l : list (Z * Z)) (g : gmap (Z * Z) Cell) :
  NoDup l → (∀ p, p ∈ l → g !! p = None) →
  size (foldl (λ g p, <[p := f p]> g) g l) = (size g + length l)%nat.
Proof.
  revert g. induction l as [|q l IH]; intros g Hnd Hfresh; cbn [foldl length]; [lia|].
  apply NoDup_cons in Hnd as [Hq Hnd]. rewrite IH; [|done|].
  - rewrite map_size_insert_None by (apply Hfresh; left). lia.
  - intros p Hp. rewrite lookup_insert_ne; [apply Hfresh; by right|].
    intros ->. done.
Qed.

(** X3 -- [_initialize_grid] fills the rectangle and nothing else: the grid
    has [width * height] cells (none when a dimension is not positive); the
    key [(x, y)] is present exactly when [0 <= x < width] and
    [0 <= y < height], and its cell records that key, is not collapsed, has
    no chosen tile, and holds the tile set without duplicates. *)
Theorem initialize_grid_complete w h ts :
  size (_initialize_grid w h ts) = (Z.to_nat w * Z.to_nat h)%nat
  ∧ (∀ x y c, _initialize_grid w h ts !! (x, y) = Some c ↔
       (0 ≤ x < w ∧ 0 ≤ y < h)
       ∧ position c = (x, y) ∧ collapsed c = false ∧ chosen c = None
       ∧ possibilities c = remove_dups ts)
  ∧ NoDup (remove_dups ts) ∧ (∀ t, t ∈ remove_dups ts ↔ t ∈ ts).
Proof.
  split_and!.
  - unfold _initialize_grid. rewrite size_foldl_insert.
    + rewrite map_size_empty, length_positions. lia.
    + apply NoDup_positions.
    + intros. apply lookup_empty.
  - intros x y c. rewrite lookup_initialize_grid, <- elem_of_positions.
    case_decide; split.
    + intros ?; by simplify_eq.
    + intros (_ & ? & ? & ? & ?). destruct c; simplify_eq/=. done.
    + done.
    + by intros (? & _).
  - apply NoDup_remove_dups.
  - intros t. apply elem_of_remove_dups.
Qed.

(** ** More about [_propagate] *)



(** *** No exception inside the grid *)

Lemma propagate_loop_ok self budget iters queue g :
  (∀ p, in_bounds self p → is_Some (g !! p)) →
  Forall (in_bounds self) queue →
  ∃ st, propagate_loop self budget iters queue g = Ok st.
Proof.
  revert iters queue g. induction budget as [|budget IH]; intros iters queue g Hkeys Hqueue.
  - destruct queue; simpl; eauto.
  - destruct queue as [|pos queue]; simpl; [eauto|].
    apply Forall_cons in Hqueue as [Hpos Hqueue].
    destruct (Hkeys pos Hpos) as [cell ->].
    destruct (visit_neighbors_ok self cell (_get_neighbors self pos) queue g)
      as (fl & Hv & Hq'); [done| |done|].
    { intros d q Hin. by apply elem_of_get_neighbors in Hin as [_ ?]. }
    rewrite Hv. pose proof (visit_neighbors_narrows _ _ _ _ _ Hv) as Hnar.
    destruct fl as [q1 g1|q1 g1]; simpl in *; [|eauto].
    apply IH; [|done]. intros p [c Hp]%Hkeys.
    destruct (narrows_lookup _ _ _ _ Hnar Hp) as (c' & -> & _). eauto.
Qed.

(** X5 -- Exceptions of [_propagate].  On a grid that has a cell for every
    coordinate of the rectangle, [_propagate] from a position inside the
    rectangle never raises: it returns [True] or [False].  From a position
    that is not a key of the grid it raises [KeyError] at once. *)
Theorem propagate_exceptions self start_pos :
  (∀ p, in_bounds self p → is_Some (grid self !! p)) →
  (in_bounds self start_pos → ∃ b self', _propagate self start_pos = Ok (b, self'))
  ∧ (grid self !! start_pos = None → _propagate self start_pos = Raise KeyError).
Proof.
  intros Hkeys. split.
  - intros Hstart. unfold _propagate, propagate_run.
    destruct (propagate_loop_ok self (Z.to_nat PROPAGATION_LIMIT) 0 [start_pos] (grid self))
      as (st & ->); [done|by apply Forall_singleton|]. simpl. eauto.
  - intros Hnone. unfold _propagate, propagate_run.
    destruct (Z.to_nat PROPAGATION_LIMIT) as [|n] eqn:Hn;
      [unfold PROPAGATION_LIMIT in Hn; lia|].
    cbn [propagate_loop]. by rewrite Hnone.
Qed.

Lemma propagate_exceptions_witness :
  _propagate corner_collapsed (3, 0) = Raise KeyError.
Proof.
  apply (propagate_exceptions corner_collapsed (3, 0)).
  - intros [x y] [Hx Hy]. simpl in Hx, Hy.
    assert (x = 0 ∨ x = 1 ∨ x = 2) as Hxs by lia.
    assert (y = 0 ∨ y = 1 ∨ y = 2) as Hys by lia.
    destruct Hxs as [-> | [-> | ->]], Hys as [-> | [-> | ->]]; vm_compute; eauto.
  - vm_compute. reflexivity.
Defined.

(** *** A missing socket *)





(** *** Propagating twice *)







(** ** Collapsed cells are final *)

Lemma run_step_keeps_collapsed self self' p c t :
  run_step self self' →
  grid self !! p = Some c → collapsed c = true → chosen c = Some t →
  possibilities c = [t] →
  grid self' !! p = Some c.
Proof.
  intros [self0 ref g b self1 g1 Hcol|self0 start b self1 Hprop] Hp Hc Hch Hposs.
  - apply collapse_cell_inv in Hcol as (cell & Href & Hcases).
    destruct Hcases as [(_ & _ & -> & _)|(_ & _ & _ & t' & Ht' & ->)]; [done|].
    simpl. destruct (decide (p = ref)) as [->|Hne].
    + rewrite lookup_insert_eq. rewrite Hp in Href. injection Href as <-.
      rewrite Hposs in Ht'. apply list_elem_of_singleton in Ht'. subst t'.
      f_equal. destruct c; simpl in *. by subst.
    + by rewrite lookup_insert_ne.
  - unfold _propagate in Hprop.
    destruct (propagate_run self0 start) as [st|] eqn:Hrun; [|done].
    simpl in Hprop. injection Hprop as _ <-. simpl.
    apply propagate_loop_narrows in Hrun.
    destruct (narrows_lookup _ _ _ _ Hrun Hp) as (c' & Hp' & Hcn).
    destruct Hcn as (_ & _ & _ & _ & _ & _ & _ & Hsame). by rewrite (Hsame Hc) in Hp'.
Qed.

(** X8 -- A collapsed cell is final.  Once a cell is collapsed, holding
    exactly its chosen tile, no later sequence of [_collapse_cell] and
    [_propagate] calls changes it -- not even [_collapse_cell] on that cell
    again. *)
Theorem collapsed_cells_frozen self self' p c t :
  rtc run_step self self' →
  grid self !! p = Some c → collapsed c = true → chosen c = Some t →
  possibilities c = [t] →
  grid self' !! p = Some c.
Proof.
  intros Hrun Hp Hc Hch Hposs.
  induction Hrun as [self|self self1 self2 Hstep _ IH]; [done|].
  apply IH. by eapply run_step_keeps_collapsed.
Qed.

Lemma collapsed_cells_frozen_witness :
  grid corner_propagated !! (0, 0)
  = Some (collapse_to (mkCell (0, 0) shutter_tileset false None) open_tile).
Proof.
  apply (collapsed_cells_frozen corner_collapsed corner_propagated (0, 0) _ open_tile).
  - eapply rtc_l; [|apply rtc_refl].
    apply (step_propagate corner_collapsed (0, 0) true). vm_compute. reflexivity.
  - vm_compute. reflexivity.
  - reflexivity.
  - reflexivity.
  - reflexivity.
Defined.

(** ** More about [generate] *)

Lemma generate_loop_fuel_mono shannon n m self g r :
  generate_loop shannon n self g = Some r → (n ≤ m)%nat →
  generate_loop shannon m self g = Some r.
Proof.
  revert m self g. induction n as [|n IH]; intros m self g; [done|].
  destruct m as [|m]; [lia|]. simpl.
  destruct (generate_step shannon self g) as [[self' g'|b self' g']|e]; try done.
  intros Hloop Hle. apply IH; [done|lia].
Qed.

(** X9 -- [generate] terminates.  Its [while True] loop always returns, a
    value or an exception, within one pass per cell that is not collapsed
    plus one: every fuel above the number of uncollapsed cells gives the
    same result, which is the result of [generate]. *)
Theorem generate_terminates shannon self g :
  ∃ r, generate shannon self g = Some r
       ∧ ∀ fuel, (size (uncollapsed (grid self)) < fuel)%nat →
           generate_loop shannon fuel self g = Some r.
Proof.
  destruct (generate_loop_returns shannon (S (size (uncollapsed (grid self)))) self g)
    as [r Hr]; [lia|].
  exists r. split.
  - unfold generate. eapply generate_loop_fuel_mono; [done|].
    pose proof (uncollapsed_size_grid (grid self)). lia.
  - intros fuel Hlt. eapply generate_loop_fuel_mono; [done|lia].
Qed.

(** *** Adjacent collapsed cells connect, also when the run fails *)






(** *** Exceptions of [generate] *)

Lemma weighted_initial w h ts :
  (∀ t, t ∈ ts → (0 < weight t)%Qc) →
  weighted (mkGen w h ts (_initialize_grid w h ts)).
Proof.
  intros Hts. split; [apply well_formed_initial|]. split; [exact Hts|].
  intros p c. simpl. rewrite lookup_initialize_grid. case_decide; [|done].
  intros Hc. injection Hc as <-. simpl.
  intros t Ht. by rewrite elem_of_remove_dups in Ht.
Qed.

Lemma weighted_narrows self g' :
  weighted self → narrows (grid self) g' → weighted (set_grid self g').
Proof.
  intros (Hwf & Hts & Hcells) Hnar. split; [by apply well_formed_narrows|].
  split; [done|]. intros p c' Hp. simpl in *.
  destruct (narrows_lookup_inv _ _ _ _ Hnar Hp) as (c & Hc & Hcn).
  destruct Hcn as (_ & _ & _ & Hsub & _).
  intros t Ht. by apply (Hcells p c Hc), Hsub.
Qed.

Lemma weighted_collapse self ref cell t :
  weighted self → grid self !! ref = Some cell → t ∈ possibilities cell →
  weighted (set_grid self (<[ref := collapse_to cell t]> (grid self))).
Proof.
  intros (Hwf & Hts & Hcells) Href Ht. split; [by apply well_formed_collapse|].
  split; [done|]. intros p c. simpl.
  destruct (decide (p = ref)) as [->|Hne].
  - rewrite lookup_insert_eq. intros Hc. injection Hc as <-. simpl.
    intros t' Ht'. apply list_elem_of_singleton in Ht'. subst t'.
    by apply (Hcells ref cell Href).
  - rewrite lookup_insert_ne by done. apply Hcells.
Qed.

Lemma generate_step_weighted shannon self g :
  weighted self →
  ∃ o, generate_step shannon self g = Ok o
       ∧ ∀ self' g', o = Continue self' g' → weighted self'.
Proof.
  intros Hweighted. pose proof Hweighted as (Hwf & Hts & Hcells).
  assert (∀ kc t, kc ∈ candidates self → t ∈ possibilities kc.2 → (0 < weight t)%Qc)
    as Hweights.
  { intros [p c] t (_ & Hp & _)%elem_of_candidates Ht. simpl in Ht.
    by apply Hts, (Hcells p c Hp). }
  unfold generate_step, _find_minimum_entropy_cell.
  destruct (candidates self) as [|kc rest] eqn:Hcand.
  - simpl. eexists. split; [done|]. intros ? ? [=].
  - destruct (entropy_ok shannon kc.2 g) as (k1 & g1 & ->).
    { intros t. apply Hweights. left. }
    simpl. destruct (min_entropy_ok shannon kc k1 rest g1) as ([ref cell] & g2 & Hmin).
    { intros kc' t ?. apply Hweights. by right. }
    rewrite Hmin. simpl.
    assert ((ref, cell) ∈ candidates self) as Hin.
    { rewrite Hcand. by eapply min_entropy_elem. }
    apply elem_of_candidates in Hin as (Hpos & Href & Hcol & Hne).
    destruct (collapse_cell_ok self ref cell g2 Href Hne) as (t & Ht & _ & Hok).
    { intros t Ht. by apply Hts, (Hcells ref cell Href). }
    rewrite Hok. simpl. rewrite lookup_insert_eq. simpl.
    rewrite (wf_position _ Hwf _ _ Href).
    pose proof (weighted_collapse self ref cell t Hweighted Href Ht) as Hweighted2.
    assert (∃ st, propagate_run
                    (set_grid self (<[ref := collapse_to cell t]> (grid self))) ref
                  = Ok st) as [st Hst].
    { apply propagate_loop_ok.
      - intros p Hp. destruct Hweighted2 as (Hwf2 & _). by apply (wf_keys _ Hwf2).
      - apply Forall_singleton. by apply in_bounds_positions. }
    unfold _propagate. rewrite Hst. simpl.
    pose proof (propagate_loop_narrows _ _ _ _ _ _ Hst) as Hnar.
    destruct (returned st); simpl.
    + eexists. split; [done|]. intros self' g' [= <- _].
      exact (weighted_narrows _ _ Hweighted2 Hnar).
    + eexists. split; [done|]. intros ? ? [=].
Qed.

Lemma generate_loop_weighted shannon fuel self g :
  weighted self → (size (uncollapsed (grid self)) < fuel)%nat →
  ∃ b self' g', generate_loop shannon fuel self g = Some (Ok (b, self', g')).
Proof.
  revert self g. induction fuel as [|fuel IH]; intros self g Hweighted Hlt; [lia|].
  simpl. destruct (generate_step_weighted shannon self g Hweighted) as (o & Hstep & Ho).
  rewrite Hstep. destruct o as [self1 g1|b self1 g1]; [|eauto].
  apply IH; [by eapply Ho|].
  apply generate_step_progress in Hstep. lia.
Qed.



(** *** Tile sets that cannot fail *)

Lemma ready_initial w h ts :
  ts ≠ [] → (∀ t, t ∈ ts → four_way t ∧ (0 < weight t)%Qc) →
  ready (mkGen w h ts (_initialize_grid w h ts)).
Proof.
  intros Hne Hts. split; [apply well_formed_initial|]. split; [exact Hts|].
  intros p c. simpl. rewrite lookup_initialize_grid. case_decide; [|done].
  intros Hc. injection Hc as <-. simpl. split.
  - destruct ts as [|t ts]; [done|]. intros Hnil.
    assert (t ∈ remove_dups (t :: ts)) as Hin by (apply elem_of_remove_dups; left).
    rewrite Hnil in Hin. by apply elem_of_nil in Hin.
  - intros t Ht. by rewrite elem_of_remove_dups in Ht.
Qed.



(** *** Degenerate inputs *)

Lemma positions_empty w h : w ≤ 0 ∨ h ≤ 0 → positions w h = [].
Proof.
  intros Hwh. apply elem_of_nil_inv. intros [x y] Hin%elem_of_positions. lia.
Qed.

Lemma generate_no_candidates shannon self g :
  candidates self = [] →
  generate shannon self g = Some (Ok (all_collapsed self, self, g)).
Proof.
  intros Hcand. unfold generate. cbn [generate_loop].
  unfold generate_step, _find_minimum_entropy_cell. by rewrite Hcand.
Qed.

Lemma candidates_initial w h ts p c :
  (p, c) ∈ candidates (mkGen w h ts (_initialize_grid w h ts)) ↔
  p ∈ positions w h ∧ c = mkCell p (remove_dups ts) false None ∧ remove_dups ts ≠ [].
Proof.
  rewrite elem_of_candidates. simpl. rewrite lookup_initialize_grid. split.
  - intros (Hp & Hc & _ & Hne). rewrite decide_True in Hc by done.
    injection Hc as <-. done.
  - intros (Hp & -> & Hne). by rewrite decide_True.
Qed.

(** X13 -- An empty grid is a success.  When the width or the height is zero
    or negative the grid has no cell, and [generate] returns [True] at once:
    nothing is collapsed and no random number is drawn. *)
Theorem generate_empty_grid shannon mersenne w h ts s world :
  w ≤ 0 ∨ h ≤ 0 →
  grid (__init__ mersenne w h ts s world).1 = ∅
  ∧ generate shannon (__init__ mersenne w h ts s world).1
                     (__init__ mersenne w h ts s world).2
    = Some (Ok (true, (__init__ mersenne w h ts s world).1,
                (__init__ mersenne w h ts s world).2)).
Proof.
  intros Hwh. simpl. split.
  - unfold _initialize_grid. by rewrite positions_empty.
  - rewrite generate_no_candidates.
    + unfold all_collapsed, grid_items. simpl. by rewrite positions_empty.
    + unfold candidates, grid_items. simpl. by rewrite positions_empty.
Qed.

Lemma generate_empty_grid_witness :
  grid (__init__ sample_stream 0 3 maze_tileset 42 (mkRng (λ _, 0%Q) 0)).1 = ∅
  ∧ generate sample_shannon
      (__init__ sample_stream 0 3 maze_tileset 42 (mkRng (λ _, 0%Q) 0)).1
      (__init__ sample_stream 0 3 maze_tileset 42 (mkRng (λ _, 0%Q) 0)).2
    = Some (Ok (true, (__init__ sample_stream 0 3 maze_tileset 42 (mkRng (λ _, 0%Q) 0)).1,
                (__init__ sample_stream 0 3 maze_tileset 42 (mkRng (λ _, 0%Q) 0)).2)).
Proof.
  apply (generate_empty_grid sample_shannon sample_stream 0 3 maze_tileset 42).
  left. lia.
Defined.

(** X14 -- An empty tile set on a grid with cells is a failure without a
    step.  Every cell starts with no possibility, so no cell is a candidate:
    [generate] returns [False] with the grid as [__init__] left it, no cell
    collapsed and no random number drawn. *)
Theorem generate_empty_tileset shannon mersenne w h s world :
  0 < w → 0 < h →
  generate shannon (__init__ mersenne w h [] s world).1
                   (__init__ mersenne w h [] s world).2
  = Some (Ok (false, (__init__ mersenne w h [] s world).1,
              (__init__ mersenne w h [] s world).2)).
Proof.
  intros Hw Hh. simpl. rewrite generate_no_candidates.
  - assert (all_collapsed (mkGen w h [] (_initialize_grid w h [])) = false) as ->; [|done].
    apply not_true_is_false. intros Hall.
    rewrite all_collapsed_spec in Hall.
    specialize (Hall (0, 0) (mkCell (0, 0) (remove_dups []) false None)).
    simpl in Hall. rewrite lookup_initialize_grid in Hall.
    rewrite decide_True in Hall by (apply elem_of_positions; lia).
    discriminate Hall; [unfold in_bounds; simpl; lia|done].
  - destruct (candidates _) as [|[p c] rest] eqn:Hcand; [done|]. exfalso.
    assert ((p, c) ∈ candidates (mkGen w h [] (_initialize_grid w h []))) as Hin
      by (rewrite Hcand; left).
    apply candidates_initial in Hin as (_ & _ & Hne). by apply Hne.
Qed.

Lemma generate_empty_tileset_witness :
  generate sample_shannon
    (__init__ sample_stream 2 3 [] 5 (mkRng (λ _, 0%Q) 0)).1
    (__init__ sample_stream 2 3 [] 5 (mkRng (λ _, 0%Q) 0)).2
  = Some (Ok (false, (__init__ sample_stream 2 3 [] 5 (mkRng (λ _, 0%Q) 0)).1,
              (__init__ sample_stream 2 3 [] 5 (mkRng (λ _, 0%Q) 0)).2)).
Proof.
  apply (generate_empty_tileset sample_shannon sample_stream 2 3 5); lia.
Defined.

(** *** Weights that are not positive *)

Lemma min_entropy_small shannon best k rest g :
  (∀ kc, kc ∈ rest → (length (possibilities kc.2) ≤ 1)%nat) →
  ∃ b, min_entropy shannon best k rest g = Ok (b, g).
Proof.
  revert best k. induction rest as [|kc rest IH]; intros best k Hsmall; [by eexists|].
  simpl. unfold entropy.
  assert ((length (possibilities kc.2) <=? 1)%nat = true) as ->.
  { apply Nat.leb_le, Hsmall. left. }
  rewrite orb_true_r. simpl.
  destruct (Qlt_le_dec 0 k); apply IH; intros kc' ?; apply Hsmall; by right.
Qed.

(** X15 -- Weights that are not positive make [generate] raise on a grid with
    cells.  With at least two distinct tiles whose weights sum to zero the
    first entropy computed divides by zero; with a single tile whose weight is
    zero or negative [random.choices] refuses the weights. *)
Theorem generate_nonpositive_weights_raise shannon mersenne w h ts s world :
  0 < w → 0 < h →
  ((1 < length (remove_dups ts))%nat →
   (foldl Qplus 0 ((λ t, this (weight t)) <$> remove_dups ts) == 0)%Q →
   generate shannon (__init__ mersenne w h ts s world).1
                    (__init__ mersenne w h ts s world).2
   = Some (Raise ZeroDivisionError))
  ∧ (∀ t, remove_dups ts = [t] → (weight t ≤ 0)%Qc →
     generate shannon (__init__ mersenne w h ts s world).1
                      (__init__ mersenne w h ts s world).2
     = Some (Raise ValueError)).
Proof.
  intros Hw Hh. simpl.
  assert (((0, 0), mkCell (0, 0) (remove_dups ts) false None)
          ∈ candidates (mkGen w h ts (_initialize_grid w h ts))
          ∨ remove_dups ts = []) as Hfirst.
  { destruct (decide (remove_dups ts = [])) as [?|Hne]; [by right|left].
    apply candidates_initial. split; [apply elem_of_positions; lia|done]. }
  split.
  - intros Hlen Hzero. destruct Hfirst as [Hfirst|Hnil];
      [|rewrite Hnil in Hlen; simpl in Hlen; lia].
    unfold generate. cbn [generate_loop].
    unfold generate_step, _find_minimum_entropy_cell.
    destruct (candidates _) as [|[p c] rest] eqn:Hcand; [by apply elem_of_nil in Hfirst|].
    assert ((p, c) ∈ candidates (mkGen w h ts (_initialize_grid w h ts))) as Hin
      by (rewrite Hcand; left).
    apply candidates_initial in Hin as (_ & -> & _).
    unfold entropy. simpl.
    assert ((length (remove_dups ts) <=? 1)%nat = false) as ->
      by (apply Nat.leb_gt; lia).
    apply Qeq_bool_iff in Hzero. by rewrite Hzero.
  - intros t Ht Hweight. rewrite Ht in Hfirst.
    destruct Hfirst as [Hfirst|?]; [|done].
    unfold generate. cbn [generate_loop].
    unfold generate_step, _find_minimum_entropy_cell.
    destruct (candidates _) as [|[p c] rest] eqn:Hcand; [by apply elem_of_nil in Hfirst|].
    assert (∀ kc, kc ∈ (p, c) :: rest →
                  kc.1 ∈ positions w h ∧ kc.2 = mkCell kc.1 [t] false None) as Hall.
    { intros [p' c'] Hin. rewrite <- Hcand in Hin.
      apply candidates_initial in Hin as (? & -> & _). by rewrite Ht. }
    destruct (Hall (p, c)) as [Hp Hc]; [left|]. simpl in Hp, Hc. subst c.
    unfold entropy at 1. simpl.
    destruct (min_entropy_small shannon
                (p, mkCell p [t] false None) 0%Q rest (seed mersenne s)) as [[ref cell] Hmin].
    { intros kc Hin. destruct (Hall kc) as [_ ->]; [by right|]. simpl. lia. }
    rewrite Hmin. simpl.
    assert ((ref, cell) ∈ (p, mkCell p [t] false None) :: rest) as Hbest
      by (by eapply min_entropy_elem).
    destruct (Hall _ Hbest) as [Href Hcell]. simpl in Href, Hcell. subst cell.
    unfold _collapse_cell. simpl. rewrite lookup_initialize_grid.
    rewrite decide_True by done. rewrite Ht. simpl.
    unfold choices, accumulate. simpl.
    destruct (Qlt_le_dec 0 (0 + this (weight t))) as [Hpos|_]; [|done].
    exfalso. unfold Qcle in Hweight. change (this 0%Qc) with 0%Q in Hweight. lra.
Qed.

Lemma generate_nonpositive_weights_raise_witness :
  generate sample_shannon
    (__init__ sample_stream 2 2 [weightless "a"; weightless "b"] 3 (mkRng (λ _, 0%Q) 0)).1
    (__init__ sample_stream 2 2 [weightless "a"; weightless "b"] 3 (mkRng (λ _, 0%Q) 0)).2
  = Some (Raise ZeroDivisionError)
  ∧ generate sample_shannon
      (__init__ sample_stream 2 2 [weightless "a"] 3 (mkRng (λ _, 0%Q) 0)).1
      (__init__ sample_stream 2 2 [weightless "a"] 3 (mkRng (λ _, 0%Q) 0)).2
    = Some (Raise ValueError).
Proof.
  split.
  - apply (generate_nonpositive_weights_raise sample_shannon sample_stream
             2 2 [weightless "a"; weightless "b"] 3); [lia|lia| |].
    + vm_compute. lia.
    + vm_compute. reflexivity.
  - apply (generate_nonpositive_weights_raise sample_shannon sample_stream
             2 2 [weightless "a"] 3 (mkRng (λ _, 0%Q) 0)) with (t := weightless "a");
      [lia|lia| |].
    + vm_compute. reflexivity.
    + vm_compute. discriminate.
Defined.

(** ** Selecting the next cell *)

Lemma min_entropy_spec shannon best bk rest g b g' :
  min_entropy shannon best bk rest g = Ok (b, g') →
  ∃ ks, entropy_keys shannon rest g = Ok (ks, g')
        ∧ ((b = best ∧ ∀ j kj, ks !! j = Some kj → (bk <= kj)%Q)
           ∨ ∃ i k, rest !! i = Some b ∧ ks !! i = Some k ∧ (k < bk)%Q
                    ∧ ∀ j kj, ks !! j = Some kj →
                        (k <= kj)%Q ∧ ((j < i)%nat → (k < kj)%Q)).
Proof.
  revert best bk g. induction rest as [|kc rest IH]; intros best bk g; simpl.
  - intros [= <- <-]. exists []. split; [done|]. left. split; [done|].
    intros j kj Hj. by rewrite lookup_nil in Hj.
  - destruct (entropy shannon kc.2 g) as [[k g1]|e]; [|done]. simpl.
    destruct (Qlt_le_dec k bk) as [Hlt|Hle]; intros Hmin;
      apply IH in Hmin as (ks & -> & Hcases); simpl; exists (k :: ks);
      (split; [done|]).
    + right. destruct Hcases as [(-> & Hall)|(i & k' & Hi & Hk & Hlt' & Hall)].
      * exists 0%nat, k. split_and!; try done.
        intros [|j] kj Hj; simpl in Hj.
        -- injection Hj as <-. split; [lra|lia].
        -- split; [by eapply Hall|lia].
      * exists (S i), k'. split_and!; try done; [lra|].
        intros [|j] kj Hj; simpl in Hj.
        -- injection Hj as <-. split; [lra|]. intros _. done.
        -- destruct (Hall j kj Hj) as [? Hstrict]. split; [done|].
           intros ?. apply Hstrict. lia.
    + destruct Hcases as [(-> & Hall)|(i & k' & Hi & Hk & Hlt' & Hall)].
      * left. split; [done|]. intros [|j] kj Hj; simpl in Hj.
        -- by injection Hj as <-.
        -- by eapply Hall.
      * right. exists (S i), k'. split_and!; try done.
        intros [|j] kj Hj; simpl in Hj.
        -- injection Hj as <-. split; [lra|]. intros _. lra.
        -- destruct (Hall j kj Hj) as [? Hstrict]. split; [done|].
           intros ?. apply Hstrict. lia.
Qed.

Lemma find_minimum_entropy_cell_keys shannon self g sel g' :
  _find_minimum_entropy_cell shannon self g = Ok (sel, g') →
  ∃ ks, entropy_keys shannon (candidates self) g = Ok (ks, g')
        ∧ match sel with
          | None => candidates self = []
          | Some best =>
            ∃ i k, candidates self !! i = Some best ∧ ks !! i = Some k
                   ∧ ∀ j kj, ks !! j = Some kj →
                       (k <= kj)%Q ∧ ((j < i)%nat → (k < kj)%Q)
          end.
Proof.
  unfold _find_minimum_entropy_cell.
  destruct (candidates self) as [|kc rest]; simpl.
  - intros [= <- <-]. by exists [].
  - destruct (entropy shannon kc.2 g) as [[k0 g1]|e]; [|done]. simpl.
    destruct (min_entropy shannon kc k0 rest g1) as [[best g2]|e] eqn:Hmin; [|done].
    simpl. intros [= <- <-].
    apply min_entropy_spec in Hmin as (ks & -> & Hcases). simpl.
    exists (k0 :: ks). split; [done|].
    destruct Hcases as [(-> & Hall)|(i & k & Hi & Hk & Hlt & Hall)].
    + exists 0%nat, k0. split_and!; try done.
      intros [|j] kj Hj; simpl in Hj.
      * injection Hj as <-. split; [lra|lia].
      * split; [by eapply Hall|lia].
    + exists (S i), k. split_and!; try done.
      intros [|j] kj Hj; simpl in Hj.
      * injection Hj as <-. split; [lra|]. intros _. done.
      * destruct (Hall j kj Hj) as [? Hstrict]. split; [done|].
        intros ?. apply Hstrict. lia.
Qed.

Lemma entropy_draws shannon c g k g' :
  entropy shannon c g = Ok (k, g') →
  stream g' = stream g
  ∧ cursor g' = (cursor g + (if draws c then 1 else 0))%nat
  ∧ (draws c = false → k = 0%Q).
Proof.
  unfold entropy, draws.
  destruct (collapsed c); simpl.
  { intros [= <- <-]. split_and!; [done|lia|done]. }
  rewrite Nat.leb_antisym. destruct (1 <? length (possibilities c))%nat; simpl.
  - destruct (Qeq_bool _ _); [done|]. intros [= <- <-]. simpl. split_and!; [done|lia|done].
  - intros [= <- <-]. split_and!; [done|lia|done].
Qed.

Lemma entropy_keys_draws shannon l g ks g' :
  entropy_keys shannon l g = Ok (ks, g') →
  length ks = length l
  ∧ stream g' = stream g
  ∧ cursor g' = (cursor g + length (filter (λ kc, draws kc.2 = true) l))%nat.
Proof.
  revert g ks. induction l as [|kc l IH]; intros g ks; simpl.
  - intros [= <- <-]. split_and!; [done|done|lia].
  - destruct (entropy shannon kc.2 g) as [[k g1]|e] eqn:Hent; [|done]. simpl.
    destruct (entropy_keys shannon l g1) as [[ks' g2]|e] eqn:Hkeys; [|done]. simpl.
    intros [= <- <-].
    apply entropy_draws in Hent as (Hs1 & Hc1 & _).
    apply IH in Hkeys as (Hlen & Hs2 & Hc2).
    split_and!; [simpl; by rewrite Hlen|congruence|].
    rewrite Hc2, Hc1, filter_cons.
    destruct (decide (draws kc.2 = true)) as [Hd|Hd].
    + rewrite Hd. simpl. lia.
    + apply not_true_is_false in Hd. rewrite Hd. lia.
Qed.

(** X16 -- What [_find_minimum_entropy_cell] returns.  It returns [None]
    exactly when no cell is uncollapsed with a tile left.  Otherwise the
    entropy of every candidate is computed once, in grid order, and the cell
    returned is a candidate stored in the grid whose entropy is the least of
    them, the first one where several are equal. *)
Theorem find_minimum_entropy_cell_spec shannon self g sel g' :
  _find_minimum_entropy_cell shannon self g = Ok (sel, g') →
  ∃ ks, entropy_keys shannon (candidates self) g = Ok (ks, g')
        ∧ length ks = length (candidates self)
        ∧ match sel with
          | None => ∀ p c, in_bounds self p → grid self !! p = Some c →
                           collapsed c = true ∨ possibilities c = []
          | Some (ref, cell) =>
            in_bounds self ref ∧ grid self !! ref = Some cell
            ∧ collapsed cell = false ∧ possibilities cell ≠ []
            ∧ ∃ i k, candidates self !! i = Some (ref, cell) ∧ ks !! i = Some k
                     ∧ ∀ j kj, ks !! j = Some kj →
                         (k <= kj)%Q ∧ ((j < i)%nat → (k < kj)%Q)
          end.
Proof.
  intros Hsel. apply find_minimum_entropy_cell_keys in Hsel as (ks & Hkeys & Hsel).
  exists ks. split; [done|]. split; [by apply entropy_keys_draws in Hkeys as (? & _)|].
  destruct sel as [[ref cell]|].
  - destruct Hsel as (i & k & Hi & Hrest).
    pose proof Hi as Hin%list_elem_of_lookup_2.
    apply elem_of_candidates in Hin as (Hpos & Href & Hcol & Hne).
    split_and!; try done; [by apply in_bounds_positions|eauto].
  - intros p c Hp Hc. destruct (collapsed c) eqn:Hcol; [by left|right].
    destruct (decide (possibilities c = [])) as [?|Hne]; [done|exfalso].
    assert ((p, c) ∈ candidates self) as Hin.
    { apply elem_of_candidates. split_and!; try done. by apply in_bounds_positions. }
    rewrite Hsel in Hin. by apply elem_of_nil in Hin.
Qed.

Lemma find_minimum_entropy_cell_spec_witness :
  ∃ ref cell g' ks,
    _find_minimum_entropy_cell sample_shannon sample_start.1 sample_start.2
    = Ok (Some (ref, cell), g')
    ∧ entropy_keys sample_shannon (candidates sample_start.1) sample_start.2 = Ok (ks, g')
    ∧ length ks = 4%nat
    ∧ grid sample_start.1 !! ref = Some cell.
Proof.
  destruct (_find_minimum_entropy_cell sample_shannon sample_start.1 sample_start.2)
    as [[[[ref cell]|] g']|e] eqn:Hsel; [|by vm_compute in Hsel..].
  destruct (find_minimum_entropy_cell_spec sample_shannon sample_start.1 sample_start.2
              (Some (ref, cell)) g' Hsel) as (ks & Hkeys & Hlen & _ & Hcell & _).
  exists ref, cell, g', ks. split; [reflexivity|]. split; [exact Hkeys|].
  split; [exact Hlen|exact Hcell].
Defined.

Lemma filter_ext_elem {A} (P1 P2 : A → Prop)
    `{!∀ x, Decision (P1 x), !∀ x, Decision (P2 x)} (l : list A) :
  (∀ x, x ∈ l → P1 x ↔ P2 x) → filter P1 l = filter P2 l.
Proof.
  induction l as [|a l IH]; intros Hiff; [done|].
  rewrite !filter_cons. rewrite IH by (intros x ?; apply Hiff; by right).
  destruct (decide (P1 a)) as [H1|H1], (decide (P2 a)) as [H2|H2]; try done.
  - exfalso. apply H2, (Hiff a); [left|done].
  - exfalso. apply H1, (Hiff a); [left|done].
Qed.

(** X17 -- The random numbers a selection uses.  Selecting draws one number
    for each candidate holding two tiles or more, none for the others (their
    entropy is 0), and nothing else: the stream is the same and the cursor
    has advanced by the number of such candidates. *)
Theorem find_minimum_entropy_cell_draws shannon self g sel g' :
  _find_minimum_entropy_cell shannon self g = Ok (sel, g') →
  stream g' = stream g
  ∧ cursor g'
    = (cursor g
       + length (filter (λ kc, (1 < length (possibilities kc.2))%nat) (candidates self)))%nat.
Proof.
  intros (ks & Hkeys & _)%find_minimum_entropy_cell_keys.
  apply entropy_keys_draws in Hkeys as (_ & Hstream & Hcursor).
  split; [done|]. rewrite Hcursor. do 2 f_equal.
  apply filter_ext_elem. intros [p c] (_ & _ & Hcol & _)%elem_of_candidates. simpl.
  unfold draws. rewrite Hcol. simpl. rewrite Nat.ltb_lt. done.
Qed.

Lemma find_minimum_entropy_cell_draws_witness :
  ∃ sel g',
    _find_minimum_entropy_cell sample_shannon sample_start.1 sample_start.2 = Ok (sel, g')
    ∧ cursor g' = 4%nat.
Proof.
  destruct (_find_minimum_entropy_cell sample_shannon sample_start.1 sample_start.2)
    as [[sel g']|e] eqn:Hsel; [|by vm_compute in Hsel].
  exists sel, g'. split; [reflexivity|].
  destruct (find_minimum_entropy_cell_draws sample_shannon sample_start.1 sample_start.2
              sel g' Hsel) as [_ Hcursor].
  rewrite Hcursor. vm_compute. reflexivity.
Defined.

(** ** Rendering *)

Lemma placeholder_text : String placeholder EmptyString = "?".
Proof. reflexivity. Qed.

Lemma collect_cases {A} (l : list (result A)) :
  (∃ xs, collect l = Ok xs ∧ l = Ok <$> xs)
  ∨ (∃ e, collect l = Raise e ∧ Raise e ∈ l).
Proof.
  induction l as [|[a|e] l IH]; simpl.
  - left. by exists [].
  - destruct IH as [(xs & -> & ->)|(e & -> & Hin)]; simpl.
    + left. by exists (a :: xs).
    + right. exists e. split; [done|]. by right.
  - right. exists e. split; [done|]. left.
Qed.

Lemma occurs_append ch s1 s2 :
  occurs ch (s1 +:+ s2) = occurs ch s1 || occurs ch s2.
Proof.
  induction s1 as [|c s1 IH]; simpl; [done|]. by rewrite IH, orb_assoc.
Qed.

Lemma occurs_concat ch sep l :
  occurs ch (String.concat sep l) = true →
  occurs ch sep = true ∨ ∃ s, s ∈ l ∧ occurs ch s = true.
Proof.
  induction l as [|s l IH]; simpl; [done|].
  destruct l as [|s' l].
  - intros Hs. right. exists s. split; [left|done].
  - change (String.append s (String.append sep (String.concat sep (s' :: l))))
      with (s +:+ sep +:+ String.concat sep (s' :: l)).
    rewrite !occurs_append, !orb_true_iff.
    intros [Hs|[Hsep|Hrest]].
    + right. exists s. split; [left|done].
    + by left.
    + destruct (IH Hrest) as [?|(s0 & Hin & Hs0)]; [by left|].
      right. exists s0. split; [by right|done].
Qed.

Lemma render_line_cases self y :
  match render_line self y with
  | Ok s =>
    (∀ x, 0 ≤ x < width self → is_Some (grid self !! (x, y)))
    ∧ ∀ ch, occurs ch s = true →
        ∃ x cell, 0 ≤ x < width self ∧ grid self !! (x, y) = Some cell
                  ∧ occurs ch (render_cell cell) = true
  | Raise e => e = KeyError ∧ ∃ x, 0 ≤ x < width self ∧ grid self !! (x, y) = None
  end.
Proof.
  unfold render_line.
  destruct (collect_cases
              ((λ x, match grid self !! (x, y) with
                     | Some cell => Ok (render_cell cell)
                     | None => Raise KeyError
                     end) <$> seqZ 0 (width self)))
    as [(xs & -> & Hxs)|(e & -> & Hin)]; simpl.
  - assert (∀ x, 0 ≤ x < width self →
              ∃ cell, grid self !! (x, y) = Some cell ∧ render_cell cell ∈ xs) as Hrow.
    { intros x Hx.
      assert (match grid self !! (x, y) with
              | Some cell => Ok (render_cell cell)
              | None => Raise KeyError
              end ∈ Ok <$> xs) as Hin.
      { rewrite <- Hxs. apply list_elem_of_fmap. exists x. split; [done|].
        apply elem_of_seqZ. lia. }
      apply list_elem_of_fmap in Hin as (s & Hs & Hin).
      destruct (grid self !! (x, y)) as [cell|]; [|done].
      injection Hs as <-. by exists cell. }
    split.
    + intros x Hx. destruct (Hrow x Hx) as (cell & -> & _). by eexists.
    + intros ch Hch. apply occurs_concat in Hch as [?|(s & Hs & Hch)]; [done|].
      assert (Ok s ∈ Ok <$> xs) as Hin by (apply list_elem_of_fmap; eauto).
      rewrite <- Hxs in Hin. apply list_elem_of_fmap in Hin as (x & Hx & Hin).
      apply elem_of_seqZ in Hin.
      destruct (grid self !! (x, y)) as [cell|] eqn:Hcell; [|done].
      injection Hx as ->. exists x, cell. split; [lia|done].
  - apply list_elem_of_fmap in Hin as (x & Hx & Hin). apply elem_of_seqZ in Hin.
    destruct (grid self !! (x, y)) as [cell|] eqn:Hcell; [done|].
    injection Hx as ->. split; [done|]. exists x. split; [lia|done].
Qed.

Lemma render_cases self :
  match render self with
  | Ok out =>
    (∀ p, in_bounds self p → is_Some (grid self !! p))
    ∧ (∃ lines, render_lines self = Ok lines
                ∧ length lines = Z.to_nat (height self)
                ∧ out = String.concat newline lines)
    ∧ ∀ ch, occurs ch out = true →
        occurs ch newline = true
        ∨ ∃ p cell, in_bounds self p ∧ grid self !! p = Some cell
                    ∧ occurs ch (render_cell cell) = true
  | Raise e => e = KeyError ∧ ∃ p, in_bounds self p ∧ grid self !! p = None
  end.
Proof.
  unfold render, render_lines.
  destruct (collect_cases (render_line self <$> seqZ 0 (height self)))
    as [(lines & Hcollect & Hlines)|(e & -> & Hin)]; simpl.
  - rewrite Hcollect. simpl.
    assert (∀ y, 0 ≤ y < height self →
              ∃ s, render_line self y = Ok s ∧ s ∈ lines) as Hrows.
    { intros y Hy.
      assert (render_line self y ∈ Ok <$> lines) as Hin.
      { rewrite <- Hlines. apply list_elem_of_fmap. exists y. split; [done|].
        apply elem_of_seqZ. lia. }
      apply list_elem_of_fmap in Hin as (s & Hs & Hin). by exists s. }
    split_and!.
    + intros [x y] [Hx Hy]. simpl in Hx, Hy.
      destruct (Hrows y Hy) as (s & Hs & _).
      pose proof (render_line_cases self y) as Hline. rewrite Hs in Hline.
      by apply Hline.
    + exists lines. split_and!; [done| |done].
      apply (f_equal length) in Hlines. rewrite !length_fmap, length_seqZ in Hlines.
      by rewrite <- Hlines.
    + intros ch Hch. apply occurs_concat in Hch as [Hnl|(s & Hs & Hch)].
      * by left.
      * right. assert (Ok s ∈ Ok <$> lines) as Hin by (apply list_elem_of_fmap; eauto).
        rewrite <- Hlines in Hin. apply list_elem_of_fmap in Hin as (y & Hy & Hin).
        apply elem_of_seqZ in Hin.
        pose proof (render_line_cases self y) as Hline. rewrite <- Hy in Hline.
        destruct Hline as [_ Hchars].
        destruct (Hchars ch Hch) as (x & cell & Hx & Hcell & Hocc).
        exists (x, y), cell. split; [split; simpl; lia|done].
  - apply list_elem_of_fmap in Hin as (y & Hy & Hin). apply elem_of_seqZ in Hin.
    pose proof (render_line_cases self y) as Hline. rewrite <- Hy in Hline.
    destruct Hline as (-> & x & Hx & Hcell). split; [done|].
    exists (x, y). split; [split; simpl; lia|done].
Qed.

(** X18 -- What [render] returns and when it raises.  [render] raises only
    [KeyError], and exactly when a coordinate of the rectangle has no cell.
    Otherwise the text is [height] lines joined by newlines, and every
    character of it is a newline or comes from what a cell of the rectangle
    renders as: the symbol of its chosen tile when it is collapsed, '?'
    when it is not. *)
Theorem render_spec self :
  match render self with
  | Ok out =>
    (∀ p, in_bounds self p → is_Some (grid self !! p))
    ∧ (∃ lines, render_lines self = Ok lines
                ∧ length lines = Z.to_nat (height self)
                ∧ out = String.concat newline lines)
    ∧ ∀ ch, occurs ch out = true →
        occurs ch newline = true
        ∨ ∃ p cell, in_bounds self p ∧ grid self !! p = Some cell
                    ∧ ((collapsed cell = false ∧ occurs ch "?" = true)
                       ∨ (collapsed cell = true ∧ chosen cell = None ∧ occurs ch "?" = true)
                       ∨ ∃ t, collapsed cell = true ∧ chosen cell = Some t
                              ∧ occurs ch (symbol t) = true)
  | Raise e => e = KeyError ∧ ∃ p, in_bounds self p ∧ grid self !! p = None
  end.
Proof.
  pose proof (render_cases self) as Hcases.
  destruct (render self) as [out|e]; [|done].
  destruct Hcases as (Hkeys & Hlines & Hchars). split_and!; try done.
  intros ch Hch. destruct (Hchars ch Hch) as [?|(p & cell & Hp & Hcell & Hocc)]; [by left|].
  right. exists p, cell. split; [done|]. split; [done|].
  unfold render_cell in Hocc.
  destruct (collapsed cell); [destruct (chosen cell) as [t|]|].
  - right. right. by exists t.
  - right. by left.
  - by left.
Qed.

Lemma generate_loop_within shannon fuel self g b self' g' :
  within self →
  generate_loop shannon fuel self g = Some (Ok (b, self', g')) →
  within self' ∧ tileset self' = tileset self.
Proof.
  assert (∀ self0 ref cell t st,
            within self0 → grid self0 !! ref = Some cell → t ∈ possibilities cell →
            propagate_run (set_grid self0 (<[ref := collapse_to cell t]> (grid self0)))
                          (position cell) = Ok st →
            within (set_grid self0 (exit_grid st))) as Hstep.
  { intros self0 ref cell t st Hwithin Href Ht Hrun p c' Hp. simpl in *.
    apply propagate_loop_narrows in Hrun.
    destruct (narrows_lookup_inv _ _ _ _ Hrun Hp) as (c & Hc & Hcn).
    destruct Hcn as (_ & _ & _ & Hsub & _). simpl in Hc.
    intros t' Ht'. apply Hsub in Ht'.
    destruct (decide (p = ref)) as [->|Hne].
    - rewrite lookup_insert_eq in Hc. injection Hc as <-. simpl in Ht'.
      apply list_elem_of_singleton in Ht'. subst t'. by apply (Hwithin ref cell).
    - rewrite lookup_insert_ne in Hc by done. by apply (Hwithin p c). }
  revert self g. induction fuel as [|fuel IH]; intros self g Hwithin; [done|].
  simpl. destruct (generate_step shannon self g) as [[self1 g1|b1 self1 g1]|e] eqn:Hgs;
    [| |done].
  - intros Hloop.
    apply generate_step_inv in Hgs
      as [(_ & ?)|(ref & cell & t & st & g2 & Hcand & Ht & _ & Hrun & Ho)]; [done|].
    apply elem_of_candidates in Hcand as (_ & Href & _).
    destruct (returned st); [|done]. injection Ho as -> _.
    destruct (IH _ _ (Hstep _ _ _ _ _ Hwithin Href Ht Hrun) Hloop) as [? Hts].
    split; [done|]. by rewrite Hts.
  - intros [= -> -> ->].
    apply generate_step_inv in Hgs
      as [(_ & Ho)|(ref & cell & t & st & g2 & Hcand & Ht & _ & Hrun & Ho)].
    + by injection Ho as _ -> _.
    + apply elem_of_candidates in Hcand as (_ & Href & _).
      destruct (returned st); [done|]. injection Ho as _ -> _.
      split; [|done]. by eapply Hstep.
Qed.

Lemma within_initial w h ts : within (mkGen w h ts (_initialize_grid w h ts)).
Proof.
  intros p c. simpl. rewrite lookup_initialize_grid. case_decide; [|done].
  intros [= <-]. simpl. intros t Ht. by rewrite elem_of_remove_dups in Ht.
Qed.

Lemma render_after_success shannon fuel self g self' g' :
  well_formed self → adjacency_invariant self → within self →
  generate_loop shannon fuel self g = Some (Ok (true, self', g')) →
  ∃ out lines,
    render self' = Ok out ∧ render_lines self' = Ok lines
    ∧ length lines = Z.to_nat (height self) ∧ out = String.concat newline lines
    ∧ ∀ ch, occurs ch out = true →
        occurs ch newline = true
        ∨ ∃ t, t ∈ tileset self ∧ occurs ch (symbol t) = true.
Proof.
  intros Hwf Hadj Hwithin Hloop.
  destruct (generate_loop_within _ _ _ _ _ _ _ Hwithin Hloop) as [Hwithin' Hts].
  destruct (generate_loop_success _ _ _ _ _ _ Hwf Hadj Hloop)
    as (Hwf' & _ & Hall & Hw & Hh).
  rewrite all_collapsed_spec in Hall.
  pose proof (render_cases self') as Hcases.
  destruct (render self') as [out|e].
  - destruct Hcases as (_ & (lines & Hlines & Hlen & Hout) & Hchars).
    exists out, lines. split_and!; try done; [by rewrite <- Hh|].
    intros ch Hch. destruct (Hchars ch Hch) as [?|(p & cell & Hp & Hcell & Hocc)]; [by left|].
    right. pose proof (Hall p cell Hp Hcell) as Hcol.
    destruct (wf_collapsed _ Hwf' _ _ Hcell Hcol) as (t & Ht & Hposs).
    exists t. split.
    + rewrite <- Hts. apply (Hwithin' p cell Hcell). rewrite Hposs. left.
    + unfold render_cell in Hocc. by rewrite Hcol, Ht in Hocc.
  - exfalso. destruct Hcases as (_ & p & Hp & Hnone).
    apply (wf_keys _ Hwf') in Hp as [c Hc]. congruence.
Qed.

(** X19 -- The text of a successful run.  When [generate] returns [True]
    for a generator built by [__init__], [render] raises nothing, gives
    [height] lines joined by newlines, and every character of the text is a
    newline or a character of the symbol of a tile of the tile set: no '?'
    placeholder is left unless a symbol has one. *)
Theorem render_after_generate shannon mersenne w h ts s world gen' g' :
  generate shannon (__init__ mersenne w h ts s world).1
                   (__init__ mersenne w h ts s world).2
  = Some (Ok (true, gen', g')) →
  ∃ out lines,
    render gen' = Ok out ∧ render_lines gen' = Ok lines
    ∧ length lines = Z.to_nat h ∧ out = String.concat newline lines
    ∧ (∀ ch, occurs ch out = true →
         occurs ch newline = true ∨ ∃ t, t ∈ ts ∧ occurs ch (symbol t) = true)
    ∧ ((∀ t, t ∈ ts → occurs placeholder (symbol t) = false) → occurs placeholder out = false).
Proof.
  simpl. intros Hgen.
  destruct (render_after_success shannon _ _ _ _ _
              (well_formed_initial w h ts) (adjacency_invariant_initial w h ts)
              (within_initial w h ts) Hgen)
    as (out & lines & Hout & Hlines & Hlen & Hjoin & Hchars).
  exists out, lines. split_and!; try done.
  intros Hsymbols. apply not_true_is_false. intros Hq.
  destruct (Hchars _ Hq) as [Hnl|(t & Ht & Hocc)]; [by vm_compute in Hnl|].
  by rewrite (Hsymbols t Ht) in Hocc.
Qed.

Lemma render_after_generate_witness :
  ∃ out lines,
    render (final_generator sample_run) = Ok out
    ∧ render_lines (final_generator sample_run) = Ok lines
    ∧ length lines = 2%nat ∧ occurs placeholder out = false.
Proof.
  destruct (render_after_generate sample_shannon sample_stream
              2 2 maze_tileset 42 (mkRng (λ _, 0%Q) 0)
              (final_generator sample_run) (final_rng sample_run))
    as (out & lines & Hout & Hlines & Hlen & _ & _ & Hq).
  - vm_compute. reflexivity.
  - exists out, lines. split; [exact Hout|]. split; [exact Hlines|].
    split; [exact Hlen|]. apply Hq. intros t Ht. unfold maze_tileset in Ht.
    repeat (apply elem_of_cons in Ht as [->|Ht]); [reflexivity..|].
    apply elem_of_nil in Ht. destruct Ht.
Defined.

(** ** The presets and the entry point *)

Lemma get_tileset_weights pattern t :
  t ∈ get_tileset pattern → (0 < weight t)%Qc.
Proof.
  intros Ht. destruct pattern; unfold get_tileset in Ht;
    repeat (apply elem_of_cons in Ht as [->|Ht]); try reflexivity;
    apply elem_of_nil in Ht; destruct Ht.
Qed.

Lemma get_tileset_four_way pattern t :
  pattern ≠ CIRCUIT → t ∈ get_tileset pattern → four_way t.
Proof.
  intros Hp Ht. destruct pattern; [done| |]; unfold get_tileset in Ht;
    repeat (apply elem_of_cons in Ht as [->|Ht]);
    try (by intros []; vm_compute);
    apply elem_of_nil in Ht; destruct Ht.
Qed.

Lemma render_well_formed self :
  well_formed self → ∃ out, render self = Ok out.
Proof.
  intros Hwf. pose proof (render_cases self) as Hcases.
  destruct (render self) as [out|e]; [by exists out|exfalso].
  destruct Hcases as (_ & p & Hp & Hnone).
  apply (wf_keys _ Hwf) in Hp as [c Hc]. congruence.
Qed.

(** X20 -- The command never ends in an exception.  For every preset, size,
    seed and output format, and whatever the random numbers, [main] past its
    argument parsing returns exit code 1 having printed nothing, or exit
    code 0 having printed one text. *)
Theorem main_never_raises json_dumps shannon mersenne seed_arg side pattern format world :
  ∃ printed code,
    main_body json_dumps shannon mersenne seed_arg side pattern format world
    = Some (Ok (printed, code))
    ∧ ((code = 1 ∧ printed = []) ∨ (code = 0 ∧ ∃ text, printed = [text])).
Proof.
  unfold main_body, __init__, generate.
  destruct (generate_loop_weighted shannon
              (S (size (_initialize_grid side side (get_tileset pattern))))
              (mkGen side side (get_tileset pattern)
                 (_initialize_grid side side (get_tileset pattern)))
              (seed mersenne seed_arg))
    as (b & gen' & g' & Hgen).
  { apply weighted_initial. intros t. apply get_tileset_weights. }
  { pose proof (uncollapsed_size_grid
                  (_initialize_grid side side (get_tileset pattern))). simpl. lia. }
  simpl grid. rewrite Hgen. destruct b; simpl.
  - destruct (generate_loop_success shannon _ _ _ _ _
                (well_formed_initial _ _ _) (adjacency_invariant_initial _ _ _) Hgen)
      as (Hwf & _).
    destruct (render_well_formed gen' Hwf) as [out ->].
    eexists _, 0. split; [done|]. right. split; [done|]. by eexists.
  - eexists [], 1. split; [done|]. by left.
Qed.

(** X21 -- The maze and tiles presets always succeed.  For these two
    presets, every size, seed and output format and whatever the random
    numbers, [generate] returns [True] and [main] prints the rendered grid --
    through [json.dumps] for the json format -- and returns exit code 0. *)
Theorem main_four_way_presets_succeed
    json_dumps shannon mersenne seed_arg side pattern format world :
  pattern ≠ CIRCUIT →
  ∃ gen' g' text,
    generate shannon
      (__init__ mersenne side side (get_tileset pattern) seed_arg world).1
      (__init__ mersenne side side (get_tileset pattern) seed_arg world).2
    = Some (Ok (true, gen', g'))
    ∧ render gen' = Ok text
    ∧ main_body json_dumps shannon mersenne seed_arg side pattern format world
      = Some (Ok ([match format with
                   | JsonFormat => json_dumps pattern side seed_arg text
                   | TextFormat => text
                   end], 0)).
Proof.
  intros Hpattern. unfold main_body, __init__, generate.
  destruct (generate_loop_ready shannon
              (S (size (_initialize_grid side side (get_tileset pattern))))
              (mkGen side side (get_tileset pattern)
                 (_initialize_grid side side (get_tileset pattern)))
              (seed mersenne seed_arg))
    as (gen' & g' & Hgen & (Hwf & _) & _).
  { apply ready_initial; [by destruct pattern|].
    intros t Ht. split; [by eapply get_tileset_four_way|by eapply get_tileset_weights]. }
  { pose proof (uncollapsed_size_grid
                  (_initialize_grid side side (get_tileset pattern))). simpl. lia. }
  destruct (render_well_formed gen' Hwf) as [out Hout].
  exists gen', g', out. split; [exact Hgen|]. split; [exact Hout|].
  simpl grid. rewrite Hgen. simpl. by rewrite Hout.
Qed.

Lemma main_four_way_presets_succeed_witness :
  ∃ text,
    main_body sample_dumps sample_shannon sample_stream 42 3 MAZE TextFormat
      (mkRng (λ _, 0%Q) 0)
    = Some (Ok ([text], 0)).
Proof.
  destruct (main_four_way_presets_succeed sample_dumps sample_shannon sample_stream
              42 3 MAZE TextFormat (mkRng (λ _, 0%Q) 0))
    as (gen' & g' & text & _ & _ & Hmain).
  - discriminate.
  - exists text. exact Hmain.
Defined.

(** ** The weighted choice *)












(** ** Propagation loses no solution *)

Lemma visit_neighbor_allows self sol pos cell queue g d q fl :
  solution self sol → in_bounds self pos → (d, q) ∈ _get_neighbors self pos →
  sol pos ∈ representative_set cell → allows g sol →
  Forall (in_bounds self) queue →
  visit_neighbor cell queue g (d, q) = Ok fl →
  ∃ queue' g', fl = Next queue' g' ∧ allows g' sol ∧ Forall (in_bounds self) queue'.
Proof.
  intros Hsol Hpos Hin Hcell Hadm Hqueue Hvisit.
  apply visit_neighbor_cases in Hvisit as (nb & Hq & Hcases).
  assert (collapsed nb = false → sol q ∈ valid_tiles cell nb d) as Hvalid.
  { intros Hcol. apply elem_of_valid_tiles. split.
    - specialize (Hadm q nb Hq). unfold representative_set in Hadm.
      by rewrite Hcol in Hadm.
    - exists (sol pos). split; [done|]. by apply Hsol. }
  destruct Hcases as [(_ & ->)|[(_ & _ & ->)|[(Hcol & _ & _ & ->)|(Hcol & _ & Hnil & _)]]].
  - by eexists _, _.
  - by eexists _, _.
  - eexists _, _. split; [done|]. split.
    + intros p c. destruct (decide (p = q)) as [->|Hne].
      * rewrite lookup_insert_eq. intros [= <-].
        unfold representative_set, narrow. simpl. rewrite Hcol. by apply Hvalid.
      * rewrite lookup_insert_ne by done. apply Hadm.
    + apply Forall_app. split; [done|]. apply Forall_singleton.
      by apply elem_of_get_neighbors in Hin as [_ ?].
  - specialize (Hvalid Hcol). rewrite Hnil in Hvalid. by apply elem_of_nil in Hvalid.
Qed.

Lemma visit_neighbors_allows self sol pos cell nbs queue g fl :
  solution self sol → in_bounds self pos →
  (∀ dn, dn ∈ nbs → dn ∈ _get_neighbors self pos) →
  sol pos ∈ representative_set cell → allows g sol →
  Forall (in_bounds self) queue →
  visit_neighbors cell nbs queue g = Ok fl →
  ∃ queue' g', fl = Next queue' g' ∧ allows g' sol ∧ Forall (in_bounds self) queue'.
Proof.
  intros Hsol Hpos. revert queue g.
  induction nbs as [|[d q] nbs IH]; intros queue g Hnbs Hcell Hadm Hqueue; simpl.
  - intros [= <-]. by eexists _, _.
  - destruct (visit_neighbor cell queue g (d, q)) as [fl1|e] eqn:Hvisit; [|done].
    destruct (visit_neighbor_allows self sol pos cell queue g d q fl1)
      as (queue1 & g1 & -> & Hadm1 & Hqueue1); try done.
    { apply Hnbs. left. }
    apply IH; try done. intros dn ?. apply Hnbs. by right.
Qed.

Lemma propagate_loop_allows self sol budget iters queue g st :
  solution self sol → allows g sol → Forall (in_bounds self) queue →
  propagate_loop self budget iters queue g = Ok st →
  returned st = true ∧ allows (exit_grid st) sol.
Proof.
  intros Hsol. revert iters queue g.
  induction budget as [|budget IH]; intros iters queue g Hadm Hqueue.
  - destruct queue; simpl; by intros [= <-].
  - destruct queue as [|pos queue]; simpl; [by intros [= <-]|].
    apply Forall_cons in Hqueue as [Hpos Hqueue].
    destruct (g !! pos) as [cell|] eqn:Hcell; [|done].
    destruct (visit_neighbors cell (_get_neighbors self pos) queue g) as [fl|e] eqn:Hvisit;
      [|done].
    destruct (visit_neighbors_allows self sol pos cell (_get_neighbors self pos)
                queue g fl)
      as (queue1 & g1 & -> & Hadm1 & Hqueue1); try done.
    { by apply Hadm. }
    by apply IH.
Qed.

(** X24 -- Propagation loses no solution.  If some assignment of a tile to
    every position makes all neighbours connect, and every cell still allows
    its tile (among the possibilities of an uncollapsed cell, the chosen tile
    of a collapsed one), then [_propagate] from a position of the grid does
    not report a contradiction, and every cell still allows its tile in the
    grid it leaves. *)
Theorem propagate_keeps_solutions self sol start_pos b self' :
  solution self sol → allows (grid self) sol → in_bounds self start_pos →
  _propagate self start_pos = Ok (b, self') →
  b = true ∧ allows (grid self') sol.
Proof.
  intros Hsol Hadm Hstart. unfold _propagate.
  destruct (propagate_run self start_pos) as [st|e] eqn:Hrun; [|done]. simpl.
  intros [= <- <-]. simpl.
  apply (propagate_loop_allows self sol _ _ _ _ _ Hsol Hadm) in Hrun; [done|].
  by apply Forall_singleton.
Qed.

Lemma propagate_keeps_solutions_witness :
  _propagate corner_collapsed (0, 0) = Ok (true, corner_propagated)
  ∧ allows (grid corner_propagated) (λ _, open_tile).
Proof.
  assert (_propagate corner_collapsed (0, 0) = Ok (true, corner_propagated)) as Hrun
    by (vm_compute; reflexivity).
  split; [exact Hrun|].
  refine (proj2 (propagate_keeps_solutions corner_collapsed (λ _, open_tile) (0, 0)
                   true corner_propagated _ _ _ Hrun)).
  - intros p d q _ _. apply four_way_connect; by intros []; vm_compute.
  - intros p c. unfold corner_collapsed. simpl.
    destruct (decide (p = (0, 0))) as [->|Hne].
    + rewrite lookup_insert_eq. intros [= <-]. vm_compute. left.
    + rewrite lookup_insert_ne by done. rewrite lookup_initialize_grid.
      case_decide; [|done]. intros [= <-]. vm_compute. left.
  - vm_compute. repeat split; discriminate.
Defined.
